(** * A doubly linked list of owned byte buffers (llist.c / llist.h)

    The C program keeps a chain of heap-allocated nodes; every node owns a
    heap-allocated copy of the caller's bytes and points to its two
    neighbours.  The list structure itself ([llist_t]) is owned by the caller
    and holds the two boundary pointers and the element count.

    The embedding below keeps this shape: a heap of allocated blocks indexed
    by address, pointers that may be [NULL], [size_t] arithmetic with its
    wrap-around, and a computation type in which dereferencing a pointer that
    is [NULL] or not allocated has no result (undefined behaviour). *)

From stdpp Require Import gmap list.
From Stdlib Require Import ZArith Lia.
From Stdlib Require Import Init.Byte.
Local Open Scope Z_scope.

(** ** Machine integers and status codes *)

(** [size_t] is taken to be 64 bits wide; values are integers in
    [0, SIZE_MOD) and arithmetic wraps. *)
Definition SIZE_MOD : Z := 2 ^ 64.
Definition wrap (z : Z) : Z := z mod SIZE_MOD.
Definition is_size_t (z : Z) : Prop := 0 ≤ z < SIZE_MOD.

(* llist.h:15-17 *)
Definition LLIST_OK : Z := 0.
Definition LLIST_NULL_ERR : Z := 1.
Definition LLIST_ALLOC_ERR : Z := 2.

(** ** Memory *)

(** A pointer is [None] for [NULL] and [Some a] for the address [a]. *)
Abbreviation ptr := (option Z).

(* llist.h:20-24 *)
Record lnode_t := { data : ptr; prev : ptr; next : ptr }.

(* llist.h:27-31 *)
Record llist_t := { head : ptr; tail : ptr; len : Z }.

(** The heap holds two kinds of allocated objects: list nodes and byte
    buffers (the payload copies). *)
Inductive block :=
| BNode (nd : lnode_t)
| BData (bs : list byte).

(** The world is the heap together with the future behaviour of the
    allocator: each call of [malloc] consumes one entry, [None] for a failed
    allocation and [Some a] for the address the allocator hands out. *)
Record world := { heap : gmap Z block; oracle : list (option Z) }.

Definition set_heap (h : gmap Z block) (w : world) : world :=
  {| heap := h; oracle := oracle w |}.

(** Computations thread the world and have no result on undefined
    behaviour. *)
Definition M (A : Type) : Type := world → option (A * world).

#[global] Instance M_ret : MRet M := λ A a w, Some (a, w).
#[global] Instance M_bind : MBind M := λ A B f m w,
  match m w with
  | Some (a, w') => f a w'
  | None => None
  end.

Definition fault {A} : M A := λ _, None.

(** Reading and writing a node through a pointer. *)
Definition load_node (p : ptr) : M lnode_t := λ w,
  match p with
  | Some a =>
      match heap w !! a with
      | Some (BNode nd) => Some (nd, w)
      | _ => None
      end
  | None => None
  end.

Definition store_node (p : ptr) (nd : lnode_t) : M unit := λ w,
  match p with
  | Some a =>
      match heap w !! a with
      | Some (BNode _) => Some (tt, set_heap (<[a := BNode nd]> (heap w)) w)
      | _ => None
      end
  | None => None
  end.

Definition with_data (v : ptr) (nd : lnode_t) : lnode_t :=
  {| data := v; prev := prev nd; next := next nd |}.
Definition with_prev (v : ptr) (nd : lnode_t) : lnode_t :=
  {| data := data nd; prev := v; next := next nd |}.
Definition with_next (v : ptr) (nd : lnode_t) : lnode_t :=
  {| data := data nd; prev := prev nd; next := v |}.

(** [p->data], [p->prev], [p->next] as r-values. *)
Definition get_data (p : ptr) : M ptr := nd ← load_node p; mret (data nd).
Definition get_prev (p : ptr) : M ptr := nd ← load_node p; mret (prev nd).
Definition get_next (p : ptr) : M ptr := nd ← load_node p; mret (next nd).

(** [p->data = v], [p->prev = v], [p->next = v]. *)
Definition put_data (p v : ptr) : M unit :=
  nd ← load_node p; store_node p (with_data v nd).
Definition put_prev (p v : ptr) : M unit :=
  nd ← load_node p; store_node p (with_prev v nd).
Definition put_next (p v : ptr) : M unit :=
  nd ← load_node p; store_node p (with_next v nd).

(** [malloc]: fails when the allocator says so; otherwise the address must be
    a non-null 64-bit value that is not allocated at present.  The new object
    starts with the contents [init] (the program overwrites every part of an
    object before reading it). *)
Definition malloc (init : block) : M ptr := λ w,
  match oracle w with
  | [] => Some (None, w)
  | c :: rest =>
      let w0 := {| heap := heap w; oracle := rest |} in
      match c with
      | Some a =>
          if decide (0 < a < SIZE_MOD) then
            match heap w !! a with
            | None => Some (Some a, {| heap := <[a := init]> (heap w); oracle := rest |})
            | Some _ => Some (None, w0)
            end
          else Some (None, w0)
      | None => Some (None, w0)
      end
  end.

(** [free]: a no-op on [NULL], undefined on an address that is not
    allocated. *)
Definition free (p : ptr) : M unit := λ w,
  match p with
  | None => Some (tt, w)
  | Some a =>
      match heap w !! a with
      | Some _ => Some (tt, set_heap (delete a (heap w)) w)
      | None => None
      end
  end.

(** [memcpy dst src n]: [src] is the caller's object ([None] for [NULL]); both
    objects must hold at least [n] bytes. *)
Definition memcpy (dst : ptr) (src : option (list byte)) (n : Z) : M unit := λ w,
  match dst, src with
  | Some a, Some bs =>
      match heap w !! a with
      | Some (BData old) =>
          if decide (n ≤ Z.of_nat (length bs) ∧ n ≤ Z.of_nat (length old)) then
            Some (tt, set_heap (<[a := BData (take (Z.to_nat n) bs ++ drop (Z.to_nat n) old)]> (heap w)) w)
          else None
      | _ => None
      end
  | _, _ => None
  end.

(** The bytes a payload pointer refers to. *)
Definition read_bytes (w : world) (p : ptr) : option (list byte) :=
  match p with
  | Some a =>
      match heap w !! a with
      | Some (BData bs) => Some bs
      | _ => None
      end
  | None => None
  end.

(** ** The program *)

(* llist.c:175-177 *)
Definition llist_empty (l : option llist_t) : bool :=
  match l with
  | None => true
  | Some lv => len lv =? 0
  end.

(* llist.c:187-201 *)
Definition lnode_new (d : option (list byte)) (n : Z) : M ptr :=
  ret ← malloc (BNode {| data := None; prev := None; next := None |});
  match ret with
  | None => mret None
  | Some _ =>
      put_prev ret None;;
      put_next ret None;;
      buf ← malloc (BData (replicate (Z.to_nat n) x00));
      put_data ret buf;;
      match buf with
      | None => free ret;; mret None
      | Some _ => memcpy buf d n;; mret ret
      end
  end.

(** [k] iterations of [ret = ret->prev] or [ret = ret->next]. *)
Fixpoint walk (field : lnode_t → ptr) (k : nat) (p : ptr) : M ptr :=
  match k with
  | O => mret p
  | S k' => nd ← load_node p; walk field k' (field nd)
  end.

(** The index after the clamp of llist.c:217. *)
Definition clamp (n i : Z) : Z := if n <=? i then wrap (n - 1) else i.

(* llist.c:212-228 *)
Definition lnode_get (l : option llist_t) (i : Z) : M ptr :=
  if llist_empty l then mret None
  else
    match l with
    | None => fault
    | Some lv =>
        let i := clamp (len lv) i in
        if len lv / 2 <=? i then
          walk prev (Z.to_nat (wrap (wrap (len lv - i) - 1))) (tail lv)
        else
          walk next (Z.to_nat i) (head lv)
    end.

(* llist.c:234-242 *)
Definition lnode_free_whole (n : ptr) : M unit :=
  match n with
  | None => mret tt
  | Some _ =>
      d ← get_data n;
      free d;;
      put_prev n None;;
      put_next n None;;
      put_data n None;;
      free n
  end.

(* llist.c:248-258 *)
Definition lnode_free (n : ptr) : M ptr :=
  match n with
  | None => mret None
  | Some _ =>
      ret ← get_data n;
      put_prev n None;;
      put_next n None;;
      put_data n None;;
      free n;;
      mret ret
  end.

(* llist.c:24-32 *)
Definition llist_init (l : option llist_t) : M (Z * option llist_t) :=
  match l with
  | None => mret (LLIST_NULL_ERR, l)
  | Some _ => mret (LLIST_OK, Some {| head := None; tail := None; len := 0 |})
  end.

(* llist.c:43-49 *)
Definition llist_get (l : option llist_t) (i : Z) : M ptr :=
  node ← lnode_get l i;
  match node with
  | Some _ => get_data node
  | None => mret None
  end.

Definition bump_len (lv : llist_t) : llist_t :=
  {| head := head lv; tail := tail lv; len := wrap (len lv + 1) |}.
Definition drop_len (lv : llist_t) : llist_t :=
  {| head := head lv; tail := tail lv; len := wrap (len lv - 1) |}.

(* llist.c:61-80 *)
Definition llist_add (l : option llist_t) (d : option (list byte)) (n : Z)
    : M (Z * option llist_t) :=
  match l, d with
  | Some lv, Some _ =>
      if n =? 0 then mret (LLIST_NULL_ERR, l)
      else
        add ← lnode_new d n;
        match add with
        | None => mret (LLIST_ALLOC_ERR, l)
        | Some _ =>
            lv' ← (if len lv =? 0 then
                     mret {| head := add; tail := add; len := len lv |}
                   else
                     put_next (tail lv) add;;
                     put_prev add (tail lv);;
                     t ← get_next (tail lv);
                     mret {| head := head lv; tail := t; len := len lv |});
            mret (LLIST_OK, Some (bump_len lv'))
        end
  | _, _ => mret (LLIST_NULL_ERR, l)
  end.

(* llist.c:93-118 *)
Definition llist_ins (l : option llist_t) (d : option (list byte)) (n i : Z)
    : M (Z * option llist_t) :=
  match l, d with
  | Some lv, Some _ =>
      if n =? 0 then mret (LLIST_NULL_ERR, l)
      else if (len lv =? 0) || (len lv <=? i) then llist_add l d n
      else
        ins ← lnode_new d n;
        match ins with
        | None => mret (LLIST_ALLOC_ERR, l)
        | Some _ =>
            lv' ← (if i =? 0 then
                     put_prev (head lv) ins;;
                     put_next ins (head lv);;
                     h ← get_prev (head lv);
                     mret {| head := h; tail := tail lv; len := len lv |}
                   else
                     bef ← lnode_get l (wrap (i - 1));
                     aft ← get_next bef;
                     put_next bef ins;;
                     put_prev ins bef;;
                     put_prev aft ins;;
                     put_next ins aft;;
                     mret lv);
            mret (LLIST_OK, Some (bump_len lv'))
        end
  | _, _ => mret (LLIST_NULL_ERR, l)
  end.

(* llist.c:129-148 *)
Definition llist_del (l : option llist_t) (i : Z) : M (ptr * option llist_t) :=
  node ← lnode_get l i;
  l' ← match node with
       | None => mret l
       | Some _ =>
           match l with
           | None => fault
           | Some lv =>
               lv' ← (if len lv =? 1 then
                        mret {| head := None; tail := None; len := len lv |}
                      else if i =? 0 then
                        h ← get_next (head lv);
                        put_prev h None;;
                        mret {| head := h; tail := tail lv; len := len lv |}
                      else if wrap (len lv - 1) <=? i then
                        t ← get_prev (tail lv);
                        put_next t None;;
                        mret {| head := head lv; tail := t; len := len lv |}
                      else
                        np ← get_prev node;
                        nn ← get_next node;
                        put_next np nn;;
                        nn' ← get_next node;
                        np' ← get_prev node;
                        put_prev nn' np';;
                        mret lv);
               mret (Some (drop_len lv'))
           end
       end;
  ret ← lnode_free node;
  mret (ret, l').

(** The loop of llist.c:157-161.  Each iteration releases the node it
    visits, so the loop cannot run more often than there are allocated
    objects; [fuel] bounds the number of iterations. *)
Fixpoint clear_loop (fuel : nat) (current : ptr) : M unit :=
  match current with
  | None => mret tt
  | Some _ =>
      match fuel with
      | O => fault
      | S fuel' =>
          nxt ← get_next current;
          lnode_free_whole current;;
          clear_loop fuel' nxt
      end
  end.

(* llist.c:154-166 *)
Definition llist_clear (l : option llist_t) : M (option llist_t) :=
  if llist_empty l then mret l
  else
    match l with
    | None => fault
    | Some lv =>
        (λ w, clear_loop (S (size (heap w))) (head lv) w);;
        mret (Some {| head := None; tail := None; len := 0 |})
    end.

(** ** Callers: sequences of public operations *)

Inductive op :=
| OpInit
| OpGet (i : Z)
| OpAdd (d : option (list byte)) (n : Z)
| OpIns (d : option (list byte)) (n i : Z)
| OpDel (i : Z)
| OpClear.

Inductive result :=
| RStatus (st : Z)
| RPtr (p : ptr)
| RNone.

Definition run_op (o : op) (l : option llist_t) : M (result * option llist_t) :=
  match o with
  | OpInit => '(st, l') ← llist_init l; mret (RStatus st, l')
  | OpGet i => p ← llist_get l i; mret (RPtr p, l)
  | OpAdd d n => '(st, l') ← llist_add l d n; mret (RStatus st, l')
  | OpIns d n i => '(st, l') ← llist_ins l d n i; mret (RStatus st, l')
  | OpDel i => '(p, l') ← llist_del l i; mret (RPtr p, l')
  | OpClear => l' ← llist_clear l; mret (RNone, l')
  end.

(** Arguments of type [size_t] are in range. *)
Definition op_ok (o : op) : Prop :=
  match o with
  | OpInit | OpClear => True
  | OpGet i | OpDel i => is_size_t i
  | OpAdd _ n => is_size_t n
  | OpIns _ n i => is_size_t n ∧ is_size_t i
  end.

(** Every allocated address is a non-null 64-bit value. *)
Definition heap_ok (h : gmap Z block) : Prop :=
  ∀ a b, h !! a = Some b → 0 < a < SIZE_MOD.

(** The list states a caller can produce: initialise a list structure with
    arbitrary contents, then apply public operations. *)
Inductive reachable : world → llist_t → Prop :=
| reach_init w l0 st l w' :
    heap_ok (heap w) →
    llist_init (Some l0) w = Some ((st, Some l), w') →
    reachable w' l
| reach_step w l o r l' w' :
    reachable w l →
    op_ok o →
    run_op o (Some l) w = Some ((r, Some l'), w') →
    reachable w' l'.

(** A run of [add] calls, in order, collecting the statuses. *)
Fixpoint add_all (xs : list (list byte * Z)) (l : option llist_t)
    : M (list Z * option llist_t) :=
  match xs with
  | [] => mret ([], l)
  | (d, n) :: xs' =>
      '(st, l1) ← llist_add l (Some d) n;
      '(sts, l2) ← add_all xs' l1;
      mret (st :: sts, l2)
  end.

(** The index resolution the specification compares [lnode_get] with: the
    same clamp, then a walk from the head only. *)
Definition lnode_get_naive (l : option llist_t) (i : Z) : M ptr :=
  if llist_empty l then mret None
  else
    match l with
    | None => fault
    | Some lv => walk next (Z.to_nat (clamp (len lv) i)) (head lv)
    end.

(** [ins_at i x l]: the sequence [l] with [x] put at position [i]. *)
Definition ins_at {A} (i : nat) (x : A) (l : list A) : list A :=
  take i l ++ x :: drop i l.

(** ** The list a memory state represents *)

(** One element of the list: the address of its node, the address of its
    payload buffer and the payload. *)
Record cell := { c_node : Z; c_buf : Z; c_bytes : list byte }.

Definition node_at (cs : list cell) (k : nat) : ptr := c_node <$> cs !! k.
Definition prev_at (cs : list cell) (k : nat) : ptr :=
  match k with
  | O => None
  | S j => node_at cs j
  end.

(** [rep w l cs]: in the world [w] the list structure [l] holds exactly the
    elements [cs], head first. *)
Record rep (w : world) (l : llist_t) (cs : list cell) : Prop := {
  rep_heap : heap_ok (heap w);
  rep_nodup : NoDup (c_node <$> cs);
  rep_nodup_buf : NoDup (c_buf <$> cs);
  rep_nodes : ∀ k c, cs !! k = Some c →
    heap w !! c_node c =
      Some (BNode {| data := Some (c_buf c); prev := prev_at cs k; next := node_at cs (S k) |});
  rep_bufs : ∀ k c, cs !! k = Some c →
    heap w !! c_buf c = Some (BData (c_bytes c));
  rep_head : head l = node_at cs 0;
  rep_tail : tail l = c_node <$> last cs;
  rep_len : len l = Z.of_nat (length cs)
}.

(** What the loop of [llist_clear] needs of the elements still to be
    visited: distinct nodes and buffers, each node pointing to its buffer and
    to the next node; and what it does to the heap for one element. *)
Definition fwd (h : gmap Z block) (cs : list cell) : Prop :=
  NoDup (c_node <$> cs) ∧ NoDup (c_buf <$> cs) ∧
  ∀ k c, cs !! k = Some c →
    (∃ pv, h !! c_node c =
             Some (BNode {| data := Some (c_buf c); prev := pv; next := node_at cs (S k) |})) ∧
    (∃ bs, h !! c_buf c = Some (BData bs)).

Definition release (h : gmap Z block) (c : cell) : gmap Z block :=
  delete (c_node c) (delete (c_buf c) h).

(** The invariant of well-formed list states. *)
Definition Inv (w : world) (l : llist_t) : Prop := ∃ cs, rep w l cs.

(** The nodes met when following [next] from [p] until [NULL]. *)
Fixpoint chain (h : gmap Z block) (p : ptr) (ns : list Z) : Prop :=
  match ns with
  | [] => p = None
  | a :: ns' => p = Some a ∧ ∃ nd, h !! a = Some (BNode nd) ∧ chain h (next nd) ns'
  end.

(** The structural invariant in the words of the specification. *)
Record structural (w : world) (l : llist_t) : Prop := {
  st_count_head : len l = 0 ↔ head l = None;
  st_head_tail : head l = None ↔ tail l = None;
  st_chain : ∃ ns,
    chain (heap w) (head l) ns ∧ last ns = tail l ∧
    len l = Z.of_nat (length ns) ∧ NoDup ns ∧
    ∀ a nd, a ∈ ns → heap w !! a = Some (BNode nd) →
      (match prev nd with
       | None => head l = Some a
       | Some b => b ∈ ns ∧ ∃ nb, heap w !! b = Some (BNode nb) ∧ next nb = Some a
       end) ∧
      (match next nd with
       | None => tail l = Some a
       | Some b => b ∈ ns ∧ ∃ nb, heap w !! b = Some (BNode nb) ∧ prev nb = Some a
       end)
}.

(** The caller's buffer holds at least the [n] bytes to be copied. *)
Definition buf_ok (d : option (list byte)) (n : Z) : Prop :=
  match d with
  | Some bs => n ≤ Z.of_nat (length bs)
  | None => True
  end.

Definition args_ok (o : op) : Prop :=
  op_ok o ∧
  match o with
  | OpAdd d n | OpIns d n _ => buf_ok d n
  | _ => True
  end.

(** The two ways an allocation inside [lnode_new] can fail. *)
Definition node_alloc_fails (w : world) : Prop :=
  ∃ w1, malloc (BNode {| data := None; prev := None; next := None |}) w = Some (None, w1).

Definition buf_alloc_fails (n : Z) (w : world) : Prop :=
  ∃ a w1 w2,
    malloc (BNode {| data := None; prev := None; next := None |}) w = Some (Some a, w1) ∧
    malloc (BData (replicate (Z.to_nat n) x00)) w1 = Some (None, w2).

(** The error behaviour required of a call [call] of [add] or [insert] with
    the handle [l], the data pointer [d] and the length [n] in the world
    [w]: it returns; the status is [LLIST_NULL_ERR] exactly when an argument
    is missing, and then nothing has changed; the status is
    [LLIST_ALLOC_ERR] exactly when the arguments are present and one of the
    two allocations fails, and then the list structure and the heap are as
    before. *)
Definition error_contract (call : M (Z * option llist_t))
    (l : option llist_t) (d : option (list byte)) (n : Z) (w : world) : Prop :=
  ∃ st l' w', call w = Some ((st, l'), w') ∧
    (st = LLIST_NULL_ERR ↔ l = None ∨ d = None ∨ n = 0) ∧
    (st = LLIST_NULL_ERR → l' = l ∧ w' = w) ∧
    (st = LLIST_ALLOC_ERR ↔
       is_Some l ∧ is_Some d ∧ n ≠ 0 ∧ (node_alloc_fails w ∨ buf_alloc_fails n w)) ∧
    (st = LLIST_ALLOC_ERR → l' = l ∧ heap w' = heap w).

(** ** A concrete run

    [init], then [add "A"], [add "B"], [add "C"], starting from an empty heap
    and a list structure with arbitrary contents; the allocator hands out
    the addresses 1, 2, 3, ... *)
Definition ex_start : world :=
  {| heap := ∅; oracle := [Some 1; Some 2; Some 3; Some 4; Some 5; Some 6; Some 7; Some 8] |}.
Definition ex_garbage : llist_t := {| head := Some 77; tail := None; len := 5 |}.
Definition ex_items : list (list byte * Z) :=
  [(["A"%byte], 1); (["B"%byte], 1); (["C"%byte], 1)].

Definition ex_state : world * llist_t :=
  Eval vm_compute in
    match ('(_, l) ← llist_init (Some ex_garbage); add_all ex_items l) ex_start with
    | Some ((_, Some l), w) => (w, l)
    | _ => (ex_start, ex_garbage)
    end.
Definition ex_w : world := ex_state.1.
Definition ex_l : llist_t := ex_state.2.

(** The state after a further [insert "Y"] at index 0. *)
Definition ex_ins : world * llist_t :=
  Eval vm_compute in
    match llist_ins (Some ex_l) (Some ["Y"%byte]) 1 0 ex_w with
    | Some ((_, Some l), w) => (w, l)
    | _ => (ex_w, ex_l)
    end.

(** An allocator that hands out one node and then fails. *)
Definition ex_fail : world := {| heap := ∅; oracle := [Some 9; None] |}.

(** The two scenarios of the specification as caller programs: the results
    are the bytes behind the returned pointers and the final count. *)
Definition peek (p : ptr) : M (option (list byte)) := λ w, Some (read_bytes w p, w).

Definition scenario_abc
    : M (option (list byte) * option (list byte) * option (list byte) * option Z) :=
  r0 ← llist_init (Some ex_garbage);
  r1 ← add_all ex_items r0.2;
  g1 ← llist_get r1.2 1;
  b1 ← peek g1;
  r2 ← llist_del r1.2 0;
  bd ← peek r2.1;
  g0 ← llist_get r2.2 0;
  b0 ← peek g0;
  mret (b1, bd, b0, len <$> r2.2).

Definition scenario_out_of_range : M (option (list byte)) :=
  r0 ← llist_init (Some ex_garbage);
  r1 ← llist_add r0.2 (Some ["X"%byte]) 1;
  r2 ← llist_ins r1.2 (Some ["Y"%byte]) 1 5;
  g1 ← llist_get r2.2 1;
  peek g1.

(** The state right after [init]. *)
Definition ex_l0 : llist_t := {| head := None; tail := None; len := 0 |}.

(** ** A sequence of byte strings as reference model

    What a caller can observe of a list is the sequence of its payloads.
    [abs_step] says what each public operation does to that sequence, given
    whether an [add] or [insert] reported success; [abs_result] gives the
    bytes behind the pointer that [get] and [del] return. *)
Definition contents (cs : list cell) : list (list byte) := c_bytes <$> cs.

Definition is_ok (r : result) : bool :=
  match r with
  | RStatus st => st =? LLIST_OK
  | _ => false
  end.

(** The position an index selects: the index itself, or the last position
    when the index is too large. *)
Definition abs_index (xs : list (list byte)) (i : Z) : nat :=
  Nat.min (Z.to_nat i) (length xs - 1).

Definition abs_step (o : op) (ok : bool) (xs : list (list byte)) : list (list byte) :=
  match o with
  | OpInit | OpClear => []
  | OpGet _ => xs
  | OpAdd (Some bs) n => if ok then xs ++ [take (Z.to_nat n) bs] else xs
  | OpIns (Some bs) n i =>
      if ok then ins_at (Nat.min (Z.to_nat i) (length xs)) (take (Z.to_nat n) bs) xs else xs
  | OpAdd None _ | OpIns None _ _ => xs
  | OpDel i => delete (abs_index xs i) xs
  end.

Definition abs_result (o : op) (xs : list (list byte)) : option (list byte) :=
  match o with
  | OpGet i | OpDel i => xs !! abs_index xs i
  | _ => None
  end.

Definition result_bytes (w : world) (r : result) : option (list byte) :=
  match r with
  | RPtr p => read_bytes w p
  | _ => None
  end.

(** A run of public operations, in order, collecting the results. *)
Fixpoint run_ops (os : list op) (l : option llist_t) : M (list result * option llist_t) :=
  match os with
  | [] => mret ([], l)
  | o :: os' =>
      '(r, l1) ← run_op o l;
      '(rs, l2) ← run_ops os' l1;
      mret (r :: rs, l2)
  end.

Fixpoint abs_run (os : list op) (rs : list result) (xs : list (list byte))
    : list (list byte) :=
  match os, rs with
  | o :: os', r :: rs' => abs_run os' rs' (abs_step o (is_ok r) xs)
  | _, _ => xs
  end.

(** The number of links [lnode_get] follows on a non-empty list: the bound
    of the loop it enters (llist.c:220 and llist.c:224). *)
Definition lnode_get_steps (lv : llist_t) (i : Z) : nat :=
  let k := clamp (len lv) i in
  if len lv / 2 <=? k then Z.to_nat (wrap (wrap (len lv - k) - 1)) else Z.to_nat k.

(** The addresses a list occupies: its nodes and its payload buffers. *)
Definition footprint (cs : list cell) : list Z := (c_node <$> cs) ++ (c_buf <$> cs).

(** The states after a further [add "Z"], and after a further [insert "Y"]
    at index 1. *)
Definition ex_add : world * llist_t :=
  Eval vm_compute in
    match llist_add (Some ex_l) (Some ["Z"%byte]) 1 ex_w with
    | Some ((_, Some l), w) => (w, l)
    | _ => (ex_w, ex_l)
    end.

Definition ex_ins1 : world * llist_t :=
  Eval vm_compute in
    match llist_ins (Some ex_l) (Some ["Y"%byte]) 1 1 ex_w with
    | Some ((_, Some l), w) => (w, l)
    | _ => (ex_w, ex_l)
    end.

(** The elements of the concrete list: nodes at 1, 3, 5 with their buffers
    at 2, 4, 6. *)
Definition ex_cs : list cell :=
  [ {| c_node := 1; c_buf := 2; c_bytes := ["A"%byte] |};
    {| c_node := 3; c_buf := 4; c_bytes := ["B"%byte] |};
    {| c_node := 5; c_buf := 6; c_bytes := ["C"%byte] |} ].

(** The concrete list on a heap that is not well-formed: the [prev] link of
    the tail node (at 5) points to the head node (at 1) instead of the
    middle node (at 3). *)
Definition ex_bent : world :=
  {| heap := <[5 := BNode {| data := Some 6; prev := Some 1; next := None |}]> (heap ex_w);
     oracle := oracle ex_w |}.

(** A run of mixed operations on the concrete list. *)
Definition ex_ops : list op :=
  [OpIns (Some ["Y"%byte]) 1 1; OpDel 9; OpGet 0; OpDel 0; OpAdd (Some ["Z"%byte]) 1].

(** ** Arithmetic and list facts *)

Lemma SIZE_MOD_pos : 0 < SIZE_MOD.
Proof. reflexivity. Qed.

Lemma wrap_small z : 0 ≤ z < SIZE_MOD → wrap z = z.
Proof. apply Z.mod_small. Qed.

Lemma SIZE_MOD_eq : SIZE_MOD = 18446744073709551616.
Proof. reflexivity. Qed.

#[global] Opaque SIZE_MOD.

(** Distinct addresses below a bound: there are fewer of them than the
    bound. *)
Lemma NoDup_bounded_length (l : list Z) (N : Z) :
  0 < N → NoDup l → (∀ a, a ∈ l → 0 < a < N) → Z.of_nat (length l) < N.
Proof.
  intros HN Hnd Hin.
  assert (Hsub : l ⊆+ seqZ 1 (N - 1)).
  { apply NoDup_submseteq; [done|]. intros a Ha. apply elem_of_seqZ.
    specialize (Hin a Ha). lia. }
  apply submseteq_length in Hsub. rewrite length_seqZ in Hsub. lia.
Qed.

(** Distinct allocated addresses: there are no more of them than the heap
    has objects. *)
Lemma NoDup_alloc_length (h : gmap Z block) (l : list Z) :
  NoDup l → (∀ a, a ∈ l → is_Some (h !! a)) → (length l ≤ size h)%nat.
Proof.
  intros Hnd Hin.
  rewrite <- (size_list_to_set (C := gset Z) l Hnd), <- size_dom.
  apply subseteq_size. intros a Ha. apply elem_of_dom, Hin.
  by apply elem_of_list_to_set in Ha.
Qed.

(** ** Running computations *)

Lemma bind_run {A B} (m : M A) (f : A → M B) w a w1 :
  m w = Some (a, w1) → (m ≫= f) w = f a w1.
Proof. intros H. unfold mbind, M_bind. by rewrite H. Qed.

Lemma bind_inv {A B} (m : M A) (f : A → M B) w b w2 :
  (m ≫= f) w = Some (b, w2) → ∃ a w1, m w = Some (a, w1) ∧ f a w1 = Some (b, w2).
Proof.
  unfold mbind, M_bind. destruct (m w) as [[a w1]|]; [|done]. eauto.
Qed.

Lemma ret_run {A} (a : A) w : (mret a : M A) w = Some (a, w).
Proof. done. Qed.

Lemma heap_set_heap h w : heap (set_heap h w) = h.
Proof. done. Qed.

Lemma load_node_run w a nd :
  heap w !! a = Some (BNode nd) → load_node (Some a) w = Some (nd, w).
Proof. intros H. unfold load_node. by rewrite H. Qed.

Lemma store_node_run w a nd nd' :
  heap w !! a = Some (BNode nd) →
  store_node (Some a) nd' w = Some (tt, set_heap (<[a := BNode nd']> (heap w)) w).
Proof. intros H. unfold store_node. by rewrite H. Qed.

Lemma get_data_run w a nd :
  heap w !! a = Some (BNode nd) → get_data (Some a) w = Some (data nd, w).
Proof. intros H. unfold get_data. by rewrite (bind_run _ _ _ _ _ (load_node_run _ _ _ H)). Qed.

Lemma get_prev_run w a nd :
  heap w !! a = Some (BNode nd) → get_prev (Some a) w = Some (prev nd, w).
Proof. intros H. unfold get_prev. by rewrite (bind_run _ _ _ _ _ (load_node_run _ _ _ H)). Qed.

Lemma get_next_run w a nd :
  heap w !! a = Some (BNode nd) → get_next (Some a) w = Some (next nd, w).
Proof. intros H. unfold get_next. by rewrite (bind_run _ _ _ _ _ (load_node_run _ _ _ H)). Qed.

Lemma put_data_run w a nd v :
  heap w !! a = Some (BNode nd) →
  put_data (Some a) v w = Some (tt, set_heap (<[a := BNode (with_data v nd)]> (heap w)) w).
Proof.
  intros H. unfold put_data.
  rewrite (bind_run _ _ _ _ _ (load_node_run _ _ _ H)). by eapply store_node_run.
Qed.

Lemma put_prev_run w a nd v :
  heap w !! a = Some (BNode nd) →
  put_prev (Some a) v w = Some (tt, set_heap (<[a := BNode (with_prev v nd)]> (heap w)) w).
Proof.
  intros H. unfold put_prev.
  rewrite (bind_run _ _ _ _ _ (load_node_run _ _ _ H)). by eapply store_node_run.
Qed.

Lemma put_next_run w a nd v :
  heap w !! a = Some (BNode nd) →
  put_next (Some a) v w = Some (tt, set_heap (<[a := BNode (with_next v nd)]> (heap w)) w).
Proof.
  intros H. unfold put_next.
  rewrite (bind_run _ _ _ _ _ (load_node_run _ _ _ H)). by eapply store_node_run.
Qed.

Lemma free_run w a b :
  heap w !! a = Some b → free (Some a) w = Some (tt, set_heap (delete a (heap w)) w).
Proof. intros H. unfold free. by rewrite H. Qed.

(** The outcomes of [malloc]: failure leaves the heap as it is; success
    yields a fresh address in range, holding the initial contents. *)
Lemma malloc_cases init w :
  ∃ r w1, malloc init w = Some (r, w1) ∧
    match r with
    | None => heap w1 = heap w
    | Some a => 0 < a < SIZE_MOD ∧ heap w !! a = None ∧ heap w1 = <[a := init]> (heap w)
    end.
Proof.
  unfold malloc. destruct (oracle w) as [|[a|] rest].
  - by eexists _, _.
  - destruct (decide _); [|by eexists _, _].
    destruct (heap w !! a) eqn:E; by eexists _, _.
  - by eexists _, _.
Qed.

Ltac heap_eq :=
  apply map_eq; intros ?;
  repeat (rewrite ?lookup_insert, ?lookup_delete; case_decide; simplify_eq; try done).
Ltac mrun L := erewrite (bind_run _ _ _ _ _ L).

(** The three ways [lnode_new] can go: the node cannot be allocated; the
    buffer cannot be allocated and the node is released again; both are
    allocated and the bytes are copied, which is defined only if the
    caller's object holds [n] bytes. *)
Lemma lnode_new_cases bs n w :
  (∃ w1, lnode_new (Some bs) n w = Some (None, w1) ∧ heap w1 = heap w) ∨
  (∃ a q o1,
     0 < a < SIZE_MOD ∧ 0 < q < SIZE_MOD ∧ a ≠ q ∧
     heap w !! a = None ∧ heap w !! q = None ∧
     lnode_new (Some bs) n w =
       if decide (n ≤ Z.of_nat (length bs)) then
         Some (Some a,
               {| heap := <[q := BData (take (Z.to_nat n) bs)]>
                            (<[a := BNode {| data := Some q; prev := None; next := None |}]> (heap w));
                  oracle := o1 |})
       else None).
Proof.
  unfold lnode_new.
  destruct (malloc_cases (BNode {| data := None; prev := None; next := None |}) w)
    as (r & w1 & Hm & Hr).
  mrun Hm. destruct r as [a|]; [|left; by eexists].
  destruct Hr as (Ha & Hfresh & Hw1).
  erewrite bind_run; [|eapply put_prev_run; rewrite Hw1; apply lookup_insert_eq].
  erewrite bind_run; [|eapply put_next_run; simpl; apply lookup_insert_eq].
  match goal with |- context [mbind _ (malloc ?b) ?w] =>
    destruct (malloc_cases b w) as (r2 & w2 & Hm2 & Hr2) end.
  mrun Hm2. simpl in Hr2. rewrite Hw1 in Hr2. rewrite !insert_insert_eq in Hr2.
  unfold with_next, with_prev in Hr2; simpl in Hr2.
  destruct r2 as [q|].
  - right. destruct Hr2 as (Hq & Hqf & Hw2).
    assert (a ≠ q) by (intros ->; by rewrite lookup_insert_eq in Hqf).
    rewrite lookup_insert_ne in Hqf by done.
    erewrite bind_run; [|eapply put_data_run; rewrite Hw2; rewrite lookup_insert_ne by done; apply lookup_insert_eq].
    exists a, q, (oracle w2). do 5 (split; [done|]).
    unfold memcpy, mbind, M_bind. simpl. rewrite lookup_insert_ne by done.
    rewrite Hw2, lookup_insert_eq. rewrite length_replicate.
    destruct (decide (n ≤ Z.of_nat (length bs))) as [Hn|Hn].
    + rewrite decide_True by lia. unfold mret, M_ret, set_heap. simpl. do 3 f_equal.
      rewrite drop_replicate.
      replace (Z.to_nat n - Z.to_nat n)%nat with 0%nat by lia. simpl. rewrite app_nil_r.
      heap_eq.
    + rewrite decide_False by tauto. done.
  - left. erewrite bind_run; [|eapply put_data_run; rewrite Hr2; apply lookup_insert_eq].
    erewrite bind_run; [|eapply free_run; simpl; apply lookup_insert_eq].
    eexists; split; [done|]. simpl.
    rewrite Hr2, !insert_insert_eq, delete_insert_eq. by apply delete_id.
Qed.

(** What a returned result of [lnode_new] looks like. *)
Lemma lnode_new_result bs n w r w1 :
  lnode_new (Some bs) n w = Some (r, w1) →
  match r with
  | None => heap w1 = heap w
  | Some a => ∃ q,
      n ≤ Z.of_nat (length bs) ∧
      0 < a < SIZE_MOD ∧ 0 < q < SIZE_MOD ∧ a ≠ q ∧
      heap w !! a = None ∧ heap w !! q = None ∧
      heap w1 =
        <[q := BData (take (Z.to_nat n) bs)]>
          (<[a := BNode {| data := Some q; prev := None; next := None |}]> (heap w))
  end.
Proof.
  intros Hnew.
  destruct (lnode_new_cases bs n w) as [(w2 & H2 & Hh)|(a & q & o1 & Ha & Hq & Haq & Hfa & Hfq & H2)];
    rewrite H2 in Hnew.
  - by simplify_eq.
  - destruct (decide _); simplify_eq. exists q. by simpl.
Qed.

(** With a buffer of at least [n] bytes [lnode_new] has a result. *)
Lemma lnode_new_spec bs n w :
  n ≤ Z.of_nat (length bs) →
  ∃ r w1, lnode_new (Some bs) n w = Some (r, w1) ∧
    match r with
    | None => heap w1 = heap w
    | Some a => ∃ q,
        0 < a < SIZE_MOD ∧ 0 < q < SIZE_MOD ∧ a ≠ q ∧
        heap w !! a = None ∧ heap w !! q = None ∧
        heap w1 =
          <[q := BData (take (Z.to_nat n) bs)]>
            (<[a := BNode {| data := Some q; prev := None; next := None |}]> (heap w))
    end.
Proof.
  intros Hn.
  destruct (lnode_new_cases bs n w) as [(w2 & H2 & Hh)|(a & q & o1 & Ha & Hq & Haq & Hfa & Hfq & H2)].
  - by exists None, w2.
  - rewrite decide_True in H2 by done. eexists (Some a), _. split; [done|].
    exists q. by simpl.
Qed.

(** ** Insertion into a sequence *)

Lemma length_ins_at {A} i (x : A) l : length (ins_at i x l) = S (length l).
Proof.
  unfold ins_at. rewrite length_app. simpl. rewrite length_take, length_drop. lia.
Qed.

Lemma lookup_ins_at_lt {A} i (x : A) l k :
  (k < i)%nat → (i ≤ length l)%nat → ins_at i x l !! k = l !! k.
Proof.
  intros. unfold ins_at. rewrite lookup_app_l by (rewrite length_take; lia).
  by apply lookup_take_lt.
Qed.

Lemma lookup_ins_at_eq {A} i (x : A) l :
  (i ≤ length l)%nat → ins_at i x l !! i = Some x.
Proof.
  intros. unfold ins_at. rewrite lookup_app_r by (rewrite length_take; lia).
  rewrite length_take_le by done. by rewrite Nat.sub_diag.
Qed.

Lemma lookup_ins_at_gt {A} i (x : A) l k :
  (i < k)%nat → (i ≤ length l)%nat → ins_at i x l !! k = l !! (k - 1)%nat.
Proof.
  intros. unfold ins_at. rewrite lookup_app_r by (rewrite length_take; lia).
  rewrite length_take_le by done.
  destruct (k - i)%nat as [|m] eqn:E; [lia|]. simpl. rewrite lookup_drop.
  f_equal. lia.
Qed.

Lemma ins_at_perm {A} i (x : A) l : ins_at i x l ≡ₚ x :: l.
Proof.
  unfold ins_at. rewrite <- Permutation_middle. by rewrite take_drop.
Qed.

Lemma ins_at_0 {A} (x : A) l : ins_at 0 x l = x :: l.
Proof. unfold ins_at. by rewrite take_0, drop_0. Qed.

Lemma ins_at_end {A} (x : A) l : ins_at (length l) x l = l ++ [x].
Proof. unfold ins_at. by rewrite firstn_all, drop_all. Qed.

(** ** Consequences of the representation *)

Section rep_facts.
Context {w : world} {l : llist_t} {cs : list cell}.
Hypothesis Hrep : rep w l cs.

Lemma rep_length_bound : Z.of_nat (length cs) < SIZE_MOD.
Proof.
  rewrite <- (length_fmap c_node).
  apply NoDup_bounded_length; [apply SIZE_MOD_pos|apply Hrep|].
  intros a (c & -> & Hc)%list_elem_of_fmap.
  apply list_elem_of_lookup in Hc as [k Hk].
  eapply (rep_heap _ _ _ Hrep), (rep_nodes _ _ _ Hrep), Hk.
Qed.

Lemma rep_len_range : 0 ≤ len l < SIZE_MOD.
Proof. rewrite (rep_len _ _ _ Hrep). pose proof rep_length_bound. lia. Qed.

Lemma rep_node_inj i j c c' :
  cs !! i = Some c → cs !! j = Some c' → c_node c = c_node c' → i = j.
Proof.
  intros Hi Hj Heq.
  eapply (NoDup_lookup _ _ _ (c_node c) (rep_nodup _ _ _ Hrep));
    rewrite list_lookup_fmap; [by rewrite Hi|by rewrite Hj, Heq].
Qed.

Lemma rep_buf_inj i j c c' :
  cs !! i = Some c → cs !! j = Some c' → c_buf c = c_buf c' → i = j.
Proof.
  intros Hi Hj Heq.
  eapply (NoDup_lookup _ _ _ (c_buf c) (rep_nodup_buf _ _ _ Hrep));
    rewrite list_lookup_fmap; [by rewrite Hi|by rewrite Hj, Heq].
Qed.

Lemma rep_node_buf i j c c' :
  cs !! i = Some c → cs !! j = Some c' → c_node c ≠ c_buf c'.
Proof.
  intros Hi Hj Heq.
  pose proof (rep_nodes _ _ _ Hrep _ _ Hi) as H1.
  pose proof (rep_bufs _ _ _ Hrep _ _ Hj) as H2. congruence.
Qed.

Lemma rep_node_at k c :
  cs !! k = Some c → node_at cs k = Some (c_node c).
Proof. intros H. unfold node_at. by rewrite H. Qed.

(** Following [next] for [k] steps from the node at position [j]. *)
Lemma walk_next_rep k : ∀ j,
  (j + k ≤ length cs)%nat →
  walk next k (node_at cs j) w = Some (node_at cs (j + k), w).
Proof.
  induction k as [|k IH]; intros j Hj; simpl.
  - by rewrite Nat.add_0_r.
  - destruct (lookup_lt_is_Some_2 cs j) as [c Hc]; [lia|].
    rewrite (rep_node_at _ _ Hc).
    rewrite (bind_run _ _ _ _ _ (load_node_run _ _ _ (rep_nodes _ _ _ Hrep _ _ Hc))).
    simpl. rewrite IH by lia. do 3 f_equal. lia.
Qed.

(** Following [prev] for [k] steps from the node at position [j]. *)
Lemma walk_prev_rep k : ∀ j,
  (k ≤ j < length cs)%nat →
  walk prev k (node_at cs j) w = Some (node_at cs (j - k), w).
Proof.
  induction k as [|k IH]; intros j Hj; simpl.
  - by rewrite Nat.sub_0_r.
  - destruct (lookup_lt_is_Some_2 cs j) as [c Hc]; [lia|].
    rewrite (rep_node_at _ _ Hc).
    rewrite (bind_run _ _ _ _ _ (load_node_run _ _ _ (rep_nodes _ _ _ Hrep _ _ Hc))).
    simpl. destruct j as [|j]; [lia|]. simpl. rewrite IH by lia. done.
Qed.

Lemma rep_tail_node_at : tail l = prev_at cs (length cs).
Proof.
  rewrite (rep_tail _ _ _ Hrep), last_lookup. by destruct cs.
Qed.

Lemma clamp_range i :
  cs ≠ [] → is_size_t i →
  0 ≤ clamp (len l) i < len l.
Proof.
  intros Hne Hi. pose proof rep_len_range as Hl.
  assert (len l ≠ 0).
  { rewrite (rep_len _ _ _ Hrep). destruct cs; [done|simpl; lia]. }
  unfold clamp, is_size_t in *. destruct (Z.leb_spec (len l) i).
  - rewrite wrap_small; lia.
  - lia.
Qed.

(** Index resolution: the node at the clamped position. *)
Lemma lnode_get_rep i :
  cs ≠ [] → is_size_t i →
  lnode_get (Some l) i w = Some (node_at cs (Z.to_nat (clamp (len l) i)), w).
Proof.
  intros Hne Hi. pose proof rep_len_range as Hl.
  pose proof (clamp_range i Hne Hi) as Hc.
  pose proof (rep_len _ _ _ Hrep) as Hlen.
  unfold lnode_get, llist_empty.
  destruct (Z.eqb_spec (len l) 0) as [|_]; [lia|].
  simpl. destruct (Z.leb_spec (len l / 2) (clamp (len l) i)).
  - rewrite !wrap_small by (try rewrite wrap_small; lia).
    rewrite rep_tail_node_at.
    destruct (length cs) as [|m] eqn:E; [lia|]. simpl.
    rewrite walk_prev_rep by lia. do 3 f_equal. lia.
  - rewrite (rep_head _ _ _ Hrep). rewrite walk_next_rep by lia. done.
Qed.

Lemma lnode_get_rep_empty i : cs = [] → lnode_get (Some l) i w = Some (None, w).
Proof.
  intros ->. unfold lnode_get, llist_empty. by rewrite (rep_len _ _ _ Hrep).
Qed.

Lemma llist_get_rep i :
  cs ≠ [] → is_size_t i →
  llist_get (Some l) i w = Some (c_buf <$> cs !! Z.to_nat (clamp (len l) i), w).
Proof.
  intros Hne Hi. unfold llist_get.
  rewrite (bind_run _ _ _ _ _ (lnode_get_rep i Hne Hi)).
  pose proof (clamp_range i Hne Hi) as Hc.
  destruct (lookup_lt_is_Some_2 cs (Z.to_nat (clamp (len l) i))) as [c Hk].
  { pose proof (rep_len _ _ _ Hrep). lia. }
  rewrite (rep_node_at _ _ Hk), Hk.
  by rewrite (get_data_run _ _ _ (rep_nodes _ _ _ Hrep _ _ Hk)).
Qed.
End rep_facts.

(** ** Linking a new element into the sequence *)

Lemma node_at_ins_at i c cs k :
  (i ≤ length cs)%nat →
  node_at (ins_at i c cs) k =
    if decide (k < i)%nat then node_at cs k
    else if decide (k = i) then Some (c_node c)
    else node_at cs (k - 1).
Proof.
  intros Hi. unfold node_at. repeat case_decide.
  - by rewrite lookup_ins_at_lt.
  - subst. by rewrite lookup_ins_at_eq.
  - by rewrite lookup_ins_at_gt by lia.
Qed.

Lemma rep_fresh_node w l cs a :
  rep w l cs → heap w !! a = None → a ∉ c_node <$> cs.
Proof.
  intros Hrep Ha (c & -> & Hc)%list_elem_of_fmap.
  apply list_elem_of_lookup in Hc as [k Hk].
  rewrite (rep_nodes _ _ _ Hrep _ _ Hk) in Ha. done.
Qed.

Lemma rep_fresh_buf w l cs q :
  rep w l cs → heap w !! q = None → q ∉ c_buf <$> cs.
Proof.
  intros Hrep Hq (c & -> & Hc)%list_elem_of_fmap.
  apply list_elem_of_lookup in Hc as [k Hk].
  rewrite (rep_bufs _ _ _ Hrep _ _ Hk) in Hq. done.
Qed.

(** If the heap [h'] holds the old elements with the links around position
    [i] redirected to a new node, and holds the new node and its buffer,
    then it represents the sequence with the new element at position [i]. *)
Lemma rep_insert w l cs h' o l' i a q bs :
  rep w l cs → (i ≤ length cs)%nat →
  heap_ok h' →
  heap w !! a = None → heap w !! q = None →
  (∀ k c, cs !! k = Some c →
     h' !! c_node c =
       Some (BNode {| data := Some (c_buf c);
                      prev := if decide (k = i) then Some a else prev_at cs k;
                      next := if decide (S k = i) then Some a else node_at cs (S k) |})) →
  (∀ k c, cs !! k = Some c → h' !! c_buf c = Some (BData (c_bytes c))) →
  h' !! a = Some (BNode {| data := Some q; prev := prev_at cs i; next := node_at cs i |}) →
  h' !! q = Some (BData bs) →
  head l' = (if decide (i = 0%nat) then Some a else head l) →
  tail l' = (if decide (i = length cs) then Some a else tail l) →
  len l' = len l + 1 →
  rep {| heap := h'; oracle := o |} l'
      (ins_at i {| c_node := a; c_buf := q; c_bytes := bs |} cs).
Proof.
  intros Hrep Hi Hok Ha Hq Hnodes Hbufs Hnew Hbuf Hhead Htail Hlen.
  set (c0 := {| c_node := a; c_buf := q; c_bytes := bs |}).
  split; simpl.
  - done.
  - rewrite ins_at_perm. simpl. apply NoDup_cons. split.
    + by eapply rep_fresh_node.
    + apply Hrep.
  - rewrite ins_at_perm. simpl. apply NoDup_cons. split.
    + by eapply rep_fresh_buf.
    + apply Hrep.
  - intros k c Hk.
    assert (Hp : prev_at (ins_at i c0 cs) k =
                 if decide (k < i)%nat then prev_at cs k
                 else if decide (k = i) then prev_at cs i
                 else if decide (k = S i) then Some a
                 else prev_at cs (k - 1)).
    { destruct k as [|k]; simpl.
      - clear Hhead Htail. repeat case_decide; subst; try done; lia.
      - clear Hhead Htail. rewrite node_at_ins_at by done.
        repeat case_decide; subst; try done; try lia.
        destruct k; [lia|]. simpl. by rewrite Nat.sub_0_r. }
    clear Hhead Htail.
    rewrite Hp, (node_at_ins_at _ _ _ (S k) Hi). clear Hp.
    destruct (decide (k < i)%nat) as [Hlt|Hge].
    + rewrite lookup_ins_at_lt in Hk by done.
      rewrite (Hnodes _ _ Hk). rewrite decide_False by lia.
      repeat case_decide; try done; try lia.
    + destruct (decide (k = i)) as [->|Hne].
      * rewrite lookup_ins_at_eq in Hk by done. simplify_eq. simpl.
        rewrite Hnew. rewrite decide_False by lia. rewrite decide_False by lia.
        simpl. by rewrite Nat.sub_0_r.
      * rewrite lookup_ins_at_gt in Hk by lia.
        rewrite (Hnodes _ _ Hk).
        destruct k as [|k]; [lia|]. simpl in *. rewrite Nat.sub_0_r in *.
        repeat case_decide; try done; try lia.
  - intros k c Hk.
    destruct (decide (k < i)%nat) as [Hlt|Hge].
    + rewrite lookup_ins_at_lt in Hk by done. eauto.
    + destruct (decide (k = i)) as [->|Hne].
      * rewrite lookup_ins_at_eq in Hk by done. by simplify_eq.
      * rewrite lookup_ins_at_gt in Hk by lia. eauto.
  - rewrite Hhead, node_at_ins_at by done. clear Htail.
    repeat case_decide; try done; try lia. apply Hrep.
  - rewrite Htail, last_lookup, length_ins_at. simpl.
    change (c_node <$> ins_at i c0 cs !! length cs) with (node_at (ins_at i c0 cs) (length cs)).
    rewrite node_at_ins_at by done. clear Hhead. repeat case_decide; try done; try lia.
    rewrite (rep_tail_node_at Hrep). destruct (length cs); [lia|]. simpl.
    by rewrite Nat.sub_0_r.
  - rewrite Hlen, length_ins_at, (rep_len _ _ _ Hrep). lia.
Qed.

Lemma heap_ok_insert h a b :
  heap_ok h → 0 < a < SIZE_MOD → heap_ok (<[a := b]> h).
Proof.
  intros Hok Ha a' b'. rewrite lookup_insert. case_decide; [by subst|]. apply Hok.
Qed.

Lemma heap_ok_delete h a : heap_ok h → heap_ok (delete a h).
Proof.
  intros Hok a' b'. rewrite lookup_delete. case_decide; [done|]. apply Hok.
Qed.

Ltac solve_heap_ok :=
  repeat first
    [ apply heap_ok_insert;
        [|first [done | match goal with H : heap_ok _ |- _ => by eapply H end]]
    | apply heap_ok_delete ];
  first [done | by eapply rep_heap].

Ltac hlookup :=
  simpl;
  repeat first
    [ rewrite lookup_insert_eq
    | rewrite lookup_insert_ne by congruence
    | rewrite lookup_delete_ne by congruence ];
  try eassumption; try reflexivity.

Lemma bind_assoc {A B C} (m : M A) (f : A → M B) (g : B → M C) w :
  ((m ≫= f) ≫= g) w = (m ≫= λ a, f a ≫= g) w.
Proof. unfold mbind, M_bind. by destruct (m w) as [[??]|]. Qed.

Ltac mstep L :=
  rewrite ?bind_assoc; erewrite bind_run; [|eapply L; hlookup]; cbv beta.

(** There is room in [size_t] for the count of one more node. *)
Lemma rep_room w l cs a :
  rep w l cs → heap w !! a = None → 0 < a < SIZE_MOD →
  wrap (len l + 1) = len l + 1.
Proof.
  intros Hrep Ha Hr. apply wrap_small. rewrite (rep_len _ _ _ Hrep).
  assert (Z.of_nat (length (a :: (c_node <$> cs))) < SIZE_MOD).
  { apply NoDup_bounded_length; [apply SIZE_MOD_pos| |].
    - apply NoDup_cons. split; [by eapply rep_fresh_node|apply Hrep].
    - intros a' [->|(c & -> & Hc)%list_elem_of_fmap]%elem_of_cons; [done|].
      apply list_elem_of_lookup in Hc as [k Hk].
      eapply (rep_heap _ _ _ Hrep), (rep_nodes _ _ _ Hrep), Hk. }
  simpl in *. rewrite length_fmap in *. lia.
Qed.

(** ** [llist_add] on a represented list *)

Lemma llist_add_rep w l cs bs n :
  rep w l cs → n ≠ 0 → n ≤ Z.of_nat (length bs) →
  ∃ r w1, lnode_new (Some bs) n w = Some (r, w1) ∧
    match r with
    | None =>
        heap w1 = heap w ∧
        llist_add (Some l) (Some bs) n w = Some ((LLIST_ALLOC_ERR, Some l), w1)
    | Some a => ∃ q l' w',
        llist_add (Some l) (Some bs) n w = Some ((LLIST_OK, Some l'), w') ∧
        heap w !! a = None ∧ heap w !! q = None ∧
        rep w' l' (cs ++ [{| c_node := a; c_buf := q; c_bytes := take (Z.to_nat n) bs |}])
    end.
Proof.
  intros Hrep Hn0 Hn.
  destruct (lnode_new_spec bs n w Hn) as (r & w1 & Hnew & Hr).
  exists r, w1. split; [done|].
  unfold llist_add. destruct (Z.eqb_spec n 0) as [|_]; [done|].
  rewrite (bind_run _ _ _ _ _ Hnew).
  destruct r as [a|]; [|done].
  destruct Hr as (q & Ha & Hq & Haq & Hfa & Hfq & Hw1).
  exists q.
  pose proof (rep_len _ _ _ Hrep) as Hlen.
  pose proof (rep_length_bound Hrep) as Hbound.
  pose proof (rep_heap _ _ _ Hrep) as Hok.
  destruct (Z.eqb_spec (len l) 0) as [Hz|Hnz].
  - (* the list is empty *)
    assert (cs = []) as -> by (destruct cs; [done|simpl in Hlen; lia]).
    eexists _, _. split; [reflexivity|]. split; [done|]. split; [done|].
    destruct w1 as [h1 o1]. simpl in Hw1. subst h1.
    apply (rep_insert w l [] _ o1 _ 0%nat a q); try done; simpl.
    + solve_heap_ok.
    + hlookup.
    + hlookup.
    + by eapply rep_room.
  - (* the new node goes behind the tail *)
    destruct (lookup_lt_is_Some_2 cs (length cs - 1)) as [ct Hct]; [lia|].
    assert (Htl : tail l = Some (c_node ct)).
    { rewrite (rep_tail _ _ _ Hrep), last_lookup.
      replace (pred (length cs)) with (length cs - 1)%nat by lia. by rewrite Hct. }
    pose proof (rep_nodes _ _ _ Hrep _ _ Hct) as Hnt.
    assert (c_node ct ≠ a) by congruence.
    assert (c_node ct ≠ q) by congruence.
    rewrite Htl.
    destruct w1 as [h1 o1]. simpl in Hw1. subst h1.
    mstep put_next_run. mstep put_prev_run. mstep get_next_run.
    eexists _, _. split; [reflexivity|]. split; [done|]. split; [done|].
    rewrite <- ins_at_end.
    apply (rep_insert w l cs _ o1 _ (length cs) a q); try done; simpl.
    + solve_heap_ok.
    + intros k c Hk. rewrite decide_False by (apply lookup_lt_Some in Hk; lia).
      pose proof (rep_nodes _ _ _ Hrep _ _ Hk) as Hnk.
      assert (c_node c ≠ a) by congruence.
      destruct (decide (S k = length cs)) as [Hlast|Hmid].
      * replace (length cs - 1)%nat with k in Hct by lia. simplify_eq.
        hlookup. do 3 f_equal. replace (length cs - 1)%nat with k by lia. done.
      * assert (c_node c ≠ c_node ct).
        { intros Heq. pose proof (rep_node_inj Hrep _ _ _ _ Hk Hct Heq). lia. }
        assert (c_node c ≠ q) by congruence.
        hlookup.
    + intros k c Hk. pose proof (rep_bufs _ _ _ Hrep _ _ Hk).
      assert (c_buf c ≠ a) by congruence.
      assert (c_buf c ≠ q) by congruence.
      assert (c_buf c ≠ c_node ct) by congruence.
      hlookup.
    + hlookup. unfold with_prev. simpl. do 3 f_equal.
      * rewrite <- (rep_tail_node_at Hrep). done.
      * unfold node_at. by rewrite lookup_ge_None_2.
    + hlookup.
    + rewrite decide_False; [done|]. lia.
    + by rewrite decide_True.
    + by eapply rep_room.
Qed.

(** Allocating fresh objects does not disturb the list. *)
Lemma rep_alloc w l cs a q ba bq o :
  rep w l cs →
  heap w !! a = None → 0 < a < SIZE_MOD →
  heap w !! q = None → 0 < q < SIZE_MOD →
  rep {| heap := <[q := bq]> (<[a := ba]> (heap w)); oracle := o |} l cs.
Proof.
  intros Hrep Ha Hra Hq Hrq. split; simpl; try apply Hrep.
  - solve_heap_ok.
  - intros k c Hk. pose proof (rep_nodes _ _ _ Hrep _ _ Hk).
    rewrite !lookup_insert_ne by congruence. done.
  - intros k c Hk. pose proof (rep_bufs _ _ _ Hrep _ _ Hk).
    rewrite !lookup_insert_ne by congruence. done.
Qed.

(** The two lookups of the mid-list branch of [llist_ins] (llist.c:108-109):
    the predecessor exists and has a successor. *)
Lemma ins_mid_lookup w l cs i :
  rep w l cs → 1 ≤ i < len l →
  ∃ cb ca,
    cs !! Z.to_nat (i - 1) = Some cb ∧ cs !! Z.to_nat i = Some ca ∧
    lnode_get (Some l) (wrap (i - 1)) w = Some (Some (c_node cb), w) ∧
    get_next (Some (c_node cb)) w = Some (Some (c_node ca), w).
Proof.
  intros Hrep Hi.
  pose proof (rep_len _ _ _ Hrep) as Hlen.
  pose proof (rep_length_bound Hrep) as Hbound.
  destruct (lookup_lt_is_Some_2 cs (Z.to_nat (i - 1))) as [cb Hcb]; [lia|].
  destruct (lookup_lt_is_Some_2 cs (Z.to_nat i)) as [ca Hca]; [lia|].
  exists cb, ca. split; [done|]. split; [done|].
  assert (cs ≠ []) by (by intros ->).
  rewrite wrap_small by lia. split.
  - rewrite (lnode_get_rep Hrep) by (done || (unfold is_size_t; lia)).
    unfold clamp. destruct (Z.leb_spec (len l) (i - 1)); [lia|].
    by rewrite (rep_node_at _ _ Hcb).
  - rewrite (get_next_run _ _ _ (rep_nodes _ _ _ Hrep _ _ Hcb)). simpl.
    replace (S (Z.to_nat (i - 1))) with (Z.to_nat i) by lia.
    by rewrite (rep_node_at _ _ Hca).
Qed.

(** ** [llist_ins] below the end of a represented list *)

Lemma llist_ins_rep w l cs bs n i :
  rep w l cs → n ≠ 0 → n ≤ Z.of_nat (length bs) → 0 ≤ i < len l →
  ∃ r w1, lnode_new (Some bs) n w = Some (r, w1) ∧
    match r with
    | None =>
        heap w1 = heap w ∧
        llist_ins (Some l) (Some bs) n i w = Some ((LLIST_ALLOC_ERR, Some l), w1)
    | Some a => ∃ q l' w',
        llist_ins (Some l) (Some bs) n i w = Some ((LLIST_OK, Some l'), w') ∧
        heap w !! a = None ∧ heap w !! q = None ∧
        rep w' l'
          (ins_at (Z.to_nat i)
             {| c_node := a; c_buf := q; c_bytes := take (Z.to_nat n) bs |} cs)
    end.
Proof.
  intros Hrep Hn0 Hn Hi.
  destruct (lnode_new_spec bs n w Hn) as (r & w1 & Hnew & Hr).
  exists r, w1. split; [done|].
  pose proof (rep_len _ _ _ Hrep) as Hlen.
  pose proof (rep_heap _ _ _ Hrep) as Hok.
  unfold llist_ins. destruct (Z.eqb_spec n 0) as [|_]; [done|].
  destruct (Z.eqb_spec (len l) 0) as [|_]; [lia|].
  destruct (Z.leb_spec (len l) i) as [|_]; [lia|]. simpl.
  rewrite (bind_run _ _ _ _ _ Hnew).
  destruct r as [a|]; [|done].
  destruct Hr as (q & Ha & Hq & Haq & Hfa & Hfq & Hw1).
  exists q.
  destruct w1 as [h1 o1]. simpl in Hw1. subst h1.
  destruct (Z.eqb_spec i 0) as [->|Hi0].
  - (* the new node goes before the head *)
    destruct (lookup_lt_is_Some_2 cs 0) as [ch Hch]; [lia|].
    assert (Hhd : head l = Some (c_node ch)).
    { rewrite (rep_head _ _ _ Hrep). by apply rep_node_at. }
    pose proof (rep_nodes _ _ _ Hrep _ _ Hch) as Hnh.
    assert (c_node ch ≠ a) by congruence.
    assert (c_node ch ≠ q) by congruence.
    rewrite Hhd.
    mstep put_prev_run. mstep put_next_run. mstep get_prev_run.
    eexists _, _. split; [reflexivity|]. split; [done|]. split; [done|].
    apply (rep_insert w l cs _ o1 _ 0%nat a q); try done; simpl.
    + lia.
    + solve_heap_ok.
    + intros k c Hk.
      pose proof (rep_nodes _ _ _ Hrep _ _ Hk) as Hnk.
      assert (c_node c ≠ a) by congruence.
      destruct (decide (k = 0%nat)) as [->|Hk0].
      * simplify_eq. hlookup.
      * assert (c_node c ≠ c_node ch).
        { intros Heq. by pose proof (rep_node_inj Hrep _ _ _ _ Hk Hch Heq). }
        assert (c_node c ≠ q) by congruence.
        hlookup.
    + intros k c Hk. pose proof (rep_bufs _ _ _ Hrep _ _ Hk).
      assert (c_buf c ≠ a) by congruence.
      assert (c_buf c ≠ q) by congruence.
      assert (c_buf c ≠ c_node ch) by congruence.
      hlookup.
    + hlookup. unfold with_next. simpl. do 3 f_equal. by rewrite (rep_node_at _ _ Hch).
    + hlookup.
    + rewrite decide_False; [done|]. lia.
    + by eapply rep_room.
  - (* the new node goes between two nodes *)
    assert (Hrep1 : rep {| heap := <[q:=BData (take (Z.to_nat n) bs)]>
                  (<[a:=BNode {| data := Some q; prev := None; next := None |}]> (heap w));
                  oracle := o1 |} l cs).
    { by apply rep_alloc. }
    destruct (ins_mid_lookup _ _ _ i Hrep1) as (cb & ca & Hcb & Hca & Hget & Hnext); [lia|].
    rewrite ?bind_assoc. rewrite (bind_run _ _ _ _ _ Hget). cbv beta.
    rewrite ?bind_assoc. rewrite (bind_run _ _ _ _ _ Hnext). cbv beta.
    pose proof (rep_nodes _ _ _ Hrep _ _ Hcb) as Hnb.
    pose proof (rep_nodes _ _ _ Hrep _ _ Hca) as Hna.
    assert (c_node cb ≠ a) by congruence.
    assert (c_node cb ≠ q) by congruence.
    assert (c_node ca ≠ a) by congruence.
    assert (c_node ca ≠ q) by congruence.
    assert (c_node ca ≠ c_node cb).
    { intros Heq. pose proof (rep_node_inj Hrep _ _ _ _ Hca Hcb Heq). lia. }
    mstep put_next_run. mstep put_prev_run. mstep put_prev_run. mstep put_next_run.
    eexists _, _. split; [reflexivity|]. split; [done|]. split; [done|].
    apply (rep_insert w l cs _ o1 _ (Z.to_nat i) a q); try done; simpl.
    + lia.
    + solve_heap_ok.
    + intros k c Hk.
      pose proof (rep_nodes _ _ _ Hrep _ _ Hk) as Hnk.
      assert (c_node c ≠ a) by congruence.
      assert (c_node c ≠ q) by congruence.
      destruct (decide (k = Z.to_nat i)) as [->|Hki].
      * simplify_eq. rewrite decide_False by lia. hlookup.
      * destruct (decide (S k = Z.to_nat i)) as [Hs|Hs].
        -- assert (k = Z.to_nat (i - 1)) as -> by lia. simplify_eq. hlookup.
        -- assert (c_node c ≠ c_node cb).
           { intros Heq. pose proof (rep_node_inj Hrep _ _ _ _ Hk Hcb Heq). lia. }
           assert (c_node c ≠ c_node ca).
           { intros Heq. pose proof (rep_node_inj Hrep _ _ _ _ Hk Hca Heq). lia. }
           hlookup.
    + intros k c Hk. pose proof (rep_bufs _ _ _ Hrep _ _ Hk).
      assert (c_buf c ≠ a) by congruence.
      assert (c_buf c ≠ q) by congruence.
      assert (c_buf c ≠ c_node cb) by congruence.
      assert (c_buf c ≠ c_node ca) by congruence.
      hlookup.
    + hlookup. unfold with_next, with_prev. simpl. do 3 f_equal.
      * destruct (Z.to_nat i) as [|m] eqn:E; [lia|]. simpl.
        replace (Z.to_nat (i - 1)) with m in Hcb by lia. by rewrite (rep_node_at _ _ Hcb).
      * by rewrite (rep_node_at _ _ Hca).
    + hlookup.
    + rewrite decide_False; [done|]. lia.
    + rewrite decide_False; [done|]. lia.
    + by eapply (rep_room w).
Qed.

(** ** Releasing nodes *)

Lemma lnode_free_run w a nd :
  heap w !! a = Some (BNode nd) →
  lnode_free (Some a) w = Some (data nd, set_heap (delete a (heap w)) w).
Proof.
  intros H. unfold lnode_free.
  mstep get_data_run. mstep put_prev_run. mstep put_next_run. mstep put_data_run.
  mstep free_run. rewrite ret_run. do 2 f_equal.
  unfold set_heap. simpl. f_equal. heap_eq.
Qed.

Lemma lnode_free_whole_run w a nd q bs :
  heap w !! a = Some (BNode nd) → data nd = Some q → heap w !! q = Some (BData bs) →
  lnode_free_whole (Some a) w = Some (tt, set_heap (delete a (delete q (heap w))) w).
Proof.
  intros H Hd Hq. unfold lnode_free_whole.
  assert (q ≠ a) by (intros ->; congruence).
  mstep get_data_run. rewrite Hd. mstep free_run.
  mstep put_prev_run. mstep put_next_run. mstep put_data_run.
  erewrite free_run by hlookup.
  do 2 f_equal. unfold set_heap. simpl. f_equal. heap_eq.
Qed.

(** ** Unlinking an element from the sequence *)

Lemma node_at_delete i cs k :
  node_at (delete i cs) k =
    if decide (k < i)%nat then node_at cs k else node_at cs (S k).
Proof.
  unfold node_at. case_decide.
  - by rewrite list_lookup_delete_lt.
  - by rewrite list_lookup_delete_ge by lia.
Qed.

(** If the heap [h'] holds the elements other than the one at position [i],
    with the links around that position closed, then it represents the
    sequence without that element. *)
Lemma rep_delete w l cs h' o l' i :
  rep w l cs → (i < length cs)%nat →
  heap_ok h' →
  (∀ k c, cs !! k = Some c → k ≠ i →
     h' !! c_node c =
       Some (BNode {| data := Some (c_buf c);
                      prev := if decide (k = S i) then prev_at cs i else prev_at cs k;
                      next := if decide (S k = i) then node_at cs (S i) else node_at cs (S k) |})) →
  (∀ k c, cs !! k = Some c → k ≠ i → h' !! c_buf c = Some (BData (c_bytes c))) →
  head l' = (if decide (i = 0%nat) then node_at cs 1 else head l) →
  tail l' = (if decide (S i = length cs) then prev_at cs i else tail l) →
  len l' = len l - 1 →
  rep {| heap := h'; oracle := o |} l' (delete i cs).
Proof.
  intros Hrep Hi Hok Hnodes Hbufs Hhead Htail Hlen.
  split; simpl.
  - done.
  - rewrite list_fmap_delete.
    eapply sublist_NoDup; [apply (rep_nodup _ _ _ Hrep)|apply sublist_delete].
  - rewrite list_fmap_delete.
    eapply sublist_NoDup; [apply (rep_nodup_buf _ _ _ Hrep)|apply sublist_delete].
  - clear Hhead Htail. intros k c Hk.
    assert (Hp : prev_at (delete i cs) k =
                 if decide (k < i)%nat then prev_at cs k
                 else if decide (k = i) then prev_at cs i
                 else prev_at cs (S k)).
    { destruct k as [|k]; simpl.
      - repeat case_decide; subst; try done; lia.
      - rewrite node_at_delete. repeat case_decide; subst; try done; lia. }
    rewrite Hp, node_at_delete. clear Hp.
    destruct (decide (k < i)%nat) as [Hlt|Hge].
    + rewrite list_lookup_delete_lt in Hk by done.
      rewrite (Hnodes _ _ Hk) by lia.
      repeat case_decide; subst; try done; lia.
    + rewrite list_lookup_delete_ge in Hk by lia.
      rewrite (Hnodes _ _ Hk) by lia.
      repeat case_decide; subst; try done; lia.
  - intros k c Hk.
    destruct (decide (k < i)%nat) as [Hlt|Hge].
    + rewrite list_lookup_delete_lt in Hk by done. apply (Hbufs _ _ Hk). lia.
    + rewrite list_lookup_delete_ge in Hk by lia. apply (Hbufs _ _ Hk). lia.
  - rewrite Hhead, node_at_delete. clear Htail.
    repeat case_decide; subst; try done; try lia. apply Hrep.
  - rewrite Htail, last_lookup, length_delete by (by apply lookup_lt_is_Some_2).
    change (c_node <$> delete i cs !! pred (length cs - 1)) with
      (node_at (delete i cs) (pred (length cs - 1))).
    rewrite node_at_delete. clear Hhead.
    rewrite (rep_tail_node_at Hrep).
    destruct (length cs) as [|[|m]] eqn:E; simpl in *; [lia| |].
    + assert (i = 0%nat) as -> by lia. simpl.
      unfold node_at. by rewrite lookup_ge_None_2 by lia.
    + repeat case_decide; subst; try done; try lia.
      assert (i = S m) as -> by lia. done.
  - rewrite Hlen, length_delete by (by apply lookup_lt_is_Some_2).
    rewrite (rep_len _ _ _ Hrep). lia.
Qed.

Lemma ret_bind {A B} (a : A) (f : A → M B) w : (mret a ≫= f) w = f a w.
Proof. done. Qed.

#[global] Arguments lnode_free : simpl never.
#[global] Arguments lnode_free_whole : simpl never.
#[global] Arguments lnode_get : simpl never.
#[global] Arguments llist_get : simpl never.
#[global] Arguments llist_add : simpl never.
#[global] Arguments llist_ins : simpl never.
#[global] Arguments llist_del : simpl never.
#[global] Arguments llist_clear : simpl never.
#[global] Arguments lnode_new : simpl never.

Ltac mnorm := repeat (rewrite ?bind_assoc, ?ret_bind; cbv beta).

(** ** [llist_del] on a represented list *)

Lemma llist_del_rep_empty w l i :
  rep w l [] → llist_del (Some l) i w = Some ((None, Some l), w).
Proof.
  intros Hrep. unfold llist_del.
  by rewrite (bind_run _ _ _ _ _ (lnode_get_rep_empty Hrep i eq_refl)).
Qed.

Lemma llist_del_rep w l cs i :
  rep w l cs → cs ≠ [] → is_size_t i →
  ∃ c0 l' w',
    cs !! Z.to_nat (clamp (len l) i) = Some c0 ∧
    llist_del (Some l) i w = Some ((Some (c_buf c0), Some l'), w') ∧
    rep w' l' (delete (Z.to_nat (clamp (len l) i)) cs) ∧
    heap w' !! c_buf c0 = Some (BData (c_bytes c0)) ∧
    heap w' !! c_node c0 = None ∧
    oracle w' = oracle w.
Proof.
  intros Hrep Hne Hi.
  pose proof (rep_len _ _ _ Hrep) as Hlen.
  pose proof (rep_length_bound Hrep) as Hbound.
  pose proof (rep_heap _ _ _ Hrep) as Hok.
  pose proof (clamp_range Hrep i Hne Hi) as Hc.
  set (idx := Z.to_nat (clamp (len l) i)) in *.
  assert (Hir : 0 ≤ i < SIZE_MOD) by done.
  assert (Hidx : (idx < length cs)%nat) by lia.
  destruct (lookup_lt_is_Some_2 cs idx Hidx) as [c0 Hc0].
  pose proof (rep_nodes _ _ _ Hrep _ _ Hc0) as Hn0.
  pose proof (rep_bufs _ _ _ Hrep _ _ Hc0) as Hb0.
  assert (Hnb : c_node c0 ≠ c_buf c0) by congruence.
  exists c0. unfold llist_del.
  rewrite (bind_run _ _ _ _ _ (lnode_get_rep Hrep i Hne Hi)). fold idx.
  rewrite (rep_node_at _ _ Hc0). cbv beta iota.
  assert (Hother_buf : ∀ k c, cs !! k = Some c → c_buf c ≠ c_node c0).
  { intros k c Hk. pose proof (rep_bufs _ _ _ Hrep _ _ Hk). congruence. }
  assert (Hother : ∀ k c, cs !! k = Some c → k ≠ idx → c_node c ≠ c_node c0).
  { intros k c Hk Hki Heq. by pose proof (rep_node_inj Hrep _ _ _ _ Hk Hc0 Heq). }
  destruct (Z.eqb_spec (len l) 1) as [H1|H1].
  - (* the only element *)
    mnorm. mstep lnode_free_run. rewrite ret_run. simpl.
    eexists _, _. split; [done|]. split; [reflexivity|].
    assert (idx = 0%nat) as Hi0 by lia. rewrite Hi0 in *.
    unfold set_heap. simpl.
    split; [|split; [by rewrite lookup_delete_ne|split; [by rewrite lookup_delete_eq|done]]].
    apply (rep_delete w l cs); try done; simpl.
    + solve_heap_ok.
    + intros k c Hk Hk0. apply lookup_lt_Some in Hk. lia.
    + intros k c Hk Hk0. apply lookup_lt_Some in Hk. lia.
    + unfold node_at. by rewrite lookup_ge_None_2 by lia.
    + rewrite decide_True by lia. done.
    + rewrite wrap_small; lia.
  - destruct (Z.eqb_spec i 0) as [Hz|Hz].
    + (* the first element *)
      assert (idx = 0%nat) as Hi0.
      { unfold idx, clamp. destruct (Z.leb_spec (len l) i); lia. }
      rewrite Hi0 in *.
      destruct (lookup_lt_is_Some_2 cs 1) as [c1 Hc1]; [lia|].
      pose proof (rep_nodes _ _ _ Hrep _ _ Hc1) as Hn1.
      pose proof (Hother _ _ Hc1 ltac:(lia)).
      rewrite (rep_head _ _ _ Hrep), (rep_node_at _ _ Hc0).
      mnorm. mstep get_next_run. simpl. rewrite (rep_node_at _ _ Hc1).
      mstep put_prev_run. mnorm. mstep lnode_free_run. rewrite ret_run. simpl.
      eexists _, _. split; [done|]. split; [reflexivity|].
      pose proof (Hother_buf _ _ Hc1). pose proof (Hother_buf _ _ Hc0).
      assert (c_buf c0 ≠ c_node c1) by congruence.
      unfold set_heap. simpl.
      split; [|split; [by hlookup|split; [by rewrite lookup_delete_eq|done]]].
      apply (rep_delete w l cs); try done; simpl.
      * solve_heap_ok.
      * intros k c Hk Hk0.
        pose proof (rep_nodes _ _ _ Hrep _ _ Hk) as Hnk.
        pose proof (Hother _ _ Hk Hk0).
        destruct (decide (k = 1%nat)) as [->|Hk1].
        -- simplify_eq. hlookup.
        -- assert (c_node c ≠ c_node c1).
           { intros Heq. by pose proof (rep_node_inj Hrep _ _ _ _ Hk Hc1 Heq). }
           hlookup.
      * intros k c Hk Hk0. pose proof (rep_bufs _ _ _ Hrep _ _ Hk).
        pose proof (Hother_buf _ _ Hk).
        assert (c_buf c ≠ c_node c1) by congruence.
        hlookup.
      * by rewrite (rep_node_at _ _ Hc1).
      * rewrite decide_False by lia. done.
      * rewrite wrap_small; lia.
    + destruct (Z.leb_spec (wrap (len l - 1)) i) as [Hge|Hlt];
        rewrite wrap_small in * by lia.
      * (* the last element *)
        assert (S idx = length cs) as Hil.
        { unfold idx, clamp. destruct (Z.leb_spec (len l) i); [rewrite wrap_small|]; lia. }
        destruct idx as [|m] eqn:Em; [lia|].
        destruct (lookup_lt_is_Some_2 cs m) as [cp Hcp]; [lia|].
        pose proof (rep_nodes _ _ _ Hrep _ _ Hcp) as Hnp.
        pose proof (Hother _ _ Hcp ltac:(lia)).
        rewrite (rep_tail_node_at Hrep), <- Hil. simpl. rewrite (rep_node_at _ _ Hc0).
        mnorm. mstep get_prev_run. simpl. rewrite (rep_node_at _ _ Hcp).
        mstep put_next_run. mnorm. mstep lnode_free_run. rewrite ret_run. simpl.
        eexists _, _. split; [done|]. split; [reflexivity|].
        pose proof (Hother_buf _ _ Hcp). pose proof (Hother_buf _ _ Hc0).
        assert (c_buf c0 ≠ c_node cp) by congruence.
        unfold set_heap. simpl.
        split; [|split; [by hlookup|split; [by rewrite lookup_delete_eq|done]]].
        apply (rep_delete w l cs); try done; simpl.
        -- solve_heap_ok.
        -- intros k c Hk Hk0.
           pose proof (rep_nodes _ _ _ Hrep _ _ Hk) as Hnk.
           pose proof (Hother _ _ Hk Hk0).
           rewrite decide_False by (apply lookup_lt_Some in Hk; lia).
           destruct (decide (k = m)) as [->|Hkm].
           ++ simplify_eq. rewrite decide_True by done. hlookup.
              unfold with_next. simpl. do 3 f_equal.
              unfold node_at. by rewrite lookup_ge_None_2 by lia.
           ++ assert (c_node c ≠ c_node cp).
              { intros Heq. by pose proof (rep_node_inj Hrep _ _ _ _ Hk Hcp Heq). }
              rewrite decide_False by lia. hlookup.
        -- intros k c Hk Hk0. pose proof (rep_bufs _ _ _ Hrep _ _ Hk).
           pose proof (Hother_buf _ _ Hk).
           assert (c_buf c ≠ c_node cp) by congruence.
           hlookup.
        -- rewrite decide_True by lia. by rewrite (rep_node_at _ _ Hcp).
        -- rewrite wrap_small; lia.
      * (* an element between two others *)
        assert (idx = Z.to_nat i) as Hii.
        { unfold idx, clamp. destruct (Z.leb_spec (len l) i); [lia|done]. }
        destruct idx as [|m] eqn:Em; [lia|].
        destruct (lookup_lt_is_Some_2 cs m) as [cp Hcp]; [lia|].
        destruct (lookup_lt_is_Some_2 cs (S (S m))) as [cn Hcn]; [lia|].
        pose proof (rep_nodes _ _ _ Hrep _ _ Hcp) as Hnp.
        pose proof (rep_nodes _ _ _ Hrep _ _ Hcn) as Hnn.
        pose proof (Hother _ _ Hcp ltac:(lia)).
        pose proof (Hother _ _ Hcn ltac:(lia)).
        assert (c_node cp ≠ c_node cn).
        { intros Heq. pose proof (rep_node_inj Hrep _ _ _ _ Hcp Hcn Heq). lia. }
        mnorm. mstep get_prev_run. simpl. rewrite (rep_node_at _ _ Hcp).
        mstep get_next_run. simpl. rewrite (rep_node_at _ _ Hcn).
        mstep put_next_run. mstep get_next_run. simpl. rewrite (rep_node_at _ _ Hcn).
        mstep get_prev_run. simpl. rewrite (rep_node_at _ _ Hcp).
        mstep put_prev_run. mnorm. mstep lnode_free_run. rewrite ret_run. simpl.
        eexists _, _. split; [done|]. split; [reflexivity|].
        pose proof (Hother_buf _ _ Hcp). pose proof (Hother_buf _ _ Hc0).
        pose proof (Hother_buf _ _ Hcn).
        assert (c_buf c0 ≠ c_node cp) by congruence.
        assert (c_buf c0 ≠ c_node cn) by congruence.
        unfold set_heap. simpl.
        split; [|split; [by hlookup|split; [by rewrite lookup_delete_eq|done]]].
        apply (rep_delete w l cs); try done; simpl.
        -- solve_heap_ok.
        -- intros k c Hk Hk0.
           pose proof (rep_nodes _ _ _ Hrep _ _ Hk) as Hnk.
           pose proof (Hother _ _ Hk Hk0).
           destruct (decide (k = m)) as [->|Hkm].
           ++ simplify_eq. repeat case_decide; try lia.
              hlookup. unfold with_next. simpl. do 3 f_equal.
              by rewrite (rep_node_at _ _ Hcn).
           ++ destruct (decide (k = S (S m))) as [->|Hkn].
              ** simplify_eq. repeat case_decide; try lia. hlookup.
                 unfold with_prev. simpl. do 3 f_equal.
                 by rewrite (rep_node_at _ _ Hcp).
              ** assert (c_node c ≠ c_node cp).
                 { intros Heq. by pose proof (rep_node_inj Hrep _ _ _ _ Hk Hcp Heq). }
                 assert (c_node c ≠ c_node cn).
                 { intros Heq. by pose proof (rep_node_inj Hrep _ _ _ _ Hk Hcn Heq). }
                 repeat case_decide; try lia. hlookup.
        -- intros k c Hk Hk0. pose proof (rep_bufs _ _ _ Hrep _ _ Hk).
           pose proof (Hother_buf _ _ Hk).
           assert (c_buf c ≠ c_node cp) by congruence.
           assert (c_buf c ≠ c_node cn) by congruence.
           hlookup.
        -- rewrite decide_False by lia. done.
        -- rewrite wrap_small; lia.
Qed.

(** ** [llist_clear] on a represented list *)

Lemma fwd_tail h c cs :
  fwd h (c :: cs) →
  fwd (delete (c_node c) (delete (c_buf c) h)) cs.
Proof.
  intros (Hn & Hb & Hc). rewrite fmap_cons in Hn, Hb.
  apply NoDup_cons in Hn as [Hn1 Hn2]. apply NoDup_cons in Hb as [Hb1 Hb2].
  split; [done|]. split; [done|]. intros k c' Hk.
  destruct (Hc 0%nat c eq_refl) as ((pv0 & Hc0) & (bs0 & Hq0)).
  destruct (Hc (S k) c' Hk) as ((pv & Hc') & (bs & Hq')).
  assert (c' ∈ cs) by (by eapply list_elem_of_lookup_2).
  assert (c_node c' ≠ c_node c).
  { intros Heq. apply Hn1. rewrite <- Heq. by apply list_elem_of_fmap_2. }
  assert (c_buf c' ≠ c_buf c).
  { intros Heq. apply Hb1. rewrite <- Heq. by apply list_elem_of_fmap_2. }
  assert (c_node c' ≠ c_buf c) by congruence.
  assert (c_buf c' ≠ c_node c) by congruence.
  split.
  - exists pv. by rewrite !lookup_delete_ne by done.
  - exists bs. by rewrite !lookup_delete_ne by done.
Qed.

Lemma clear_loop_fwd cs : ∀ w fuel,
  fwd (heap w) cs → (length cs ≤ fuel)%nat →
  clear_loop fuel (node_at cs 0) w = Some (tt, set_heap (foldl release (heap w) cs) w).
Proof.
  induction cs as [|c cs IH]; intros w fuel Hf Hfuel.
  - destruct fuel; by destruct w.
  - destruct fuel as [|fuel]; [simpl in Hfuel; lia|].
    destruct Hf as (Hn & Hb & Hc).
    destruct (Hc 0%nat c eq_refl) as ((pv0 & Hc0) & (bs0 & Hq0)).
    change (node_at (c :: cs) 0) with (Some (c_node c)).
    cbn [clear_loop].
    mstep get_next_run. cbn [next].
    change (node_at (c :: cs) 1) with (node_at cs 0).
    erewrite bind_run; [|by eapply lnode_free_whole_run].
    rewrite IH; [done| |simpl in Hfuel; lia].
    by apply fwd_tail.
Qed.

Lemma rep_fwd w l cs : rep w l cs → fwd (heap w) cs.
Proof.
  intros Hrep. split; [apply (rep_nodup _ _ _ Hrep)|].
  split; [apply (rep_nodup_buf _ _ _ Hrep)|]. intros k c Hk. split.
  - eexists. apply (rep_nodes _ _ _ Hrep _ _ Hk).
  - eexists. apply (rep_bufs _ _ _ Hrep _ _ Hk).
Qed.

Lemma heap_ok_release cs : ∀ h, heap_ok h → heap_ok (foldl release h cs).
Proof.
  induction cs as [|c cs IH]; intros h Hok; [done|]. simpl. apply IH.
  unfold release. by do 2 apply heap_ok_delete.
Qed.

Lemma rep_empty_list w l : rep w l [] → l = {| head := None; tail := None; len := 0 |}.
Proof.
  intros Hrep. destruct l as [h t n].
  pose proof (rep_head _ _ _ Hrep). pose proof (rep_tail _ _ _ Hrep).
  pose proof (rep_len _ _ _ Hrep). simpl in *. by subst.
Qed.

Lemma rep_nil w : heap_ok (heap w) → rep w {| head := None; tail := None; len := 0 |} [].
Proof. intros Hok. split; try done; constructor. Qed.

Lemma llist_clear_rep w l cs :
  rep w l cs →
  ∃ w', llist_clear (Some l) w = Some (Some {| head := None; tail := None; len := 0 |}, w') ∧
        rep w' {| head := None; tail := None; len := 0 |} [] ∧
        oracle w' = oracle w ∧
        (cs = [] → w' = w).
Proof.
  intros Hrep. pose proof (rep_len _ _ _ Hrep) as Hlen.
  unfold llist_clear, llist_empty.
  destruct (Z.eqb_spec (len l) 0) as [Hz|Hnz].
  - assert (cs = []) as -> by (destruct cs; [done|simpl in Hlen; lia]).
    pose proof (rep_empty_list _ _ Hrep) as ->. exists w. split; [done|].
    split; [done|]. done.
  - assert (Hlk : (λ w0, clear_loop (S (size (heap w0))) (head l) w0) w =
                  Some (tt, set_heap (foldl release (heap w) cs) w)).
    { cbv beta. rewrite (rep_head _ _ _ Hrep). apply clear_loop_fwd.
      - by eapply rep_fwd.
      - rewrite <- (length_fmap c_node). apply Nat.le_le_succ_r.
        apply NoDup_alloc_length; [apply (rep_nodup _ _ _ Hrep)|].
        intros a (c & -> & Hc)%list_elem_of_fmap.
        apply list_elem_of_lookup in Hc as [k Hk].
        rewrite (rep_nodes _ _ _ Hrep _ _ Hk). by eexists. }
    rewrite (bind_run _ _ _ _ _ Hlk). eexists. split; [reflexivity|].
    split; [|split; [done|]].
    + apply rep_nil. simpl. apply heap_ok_release, Hrep.
    + intros ->. simpl in Hlen. lia.
Qed.

(** ** The structural invariant *)

Lemma chain_rep w l cs : rep w l cs →
  ∀ n j, length cs = (j + n)%nat →
    chain (heap w) (node_at cs j) (c_node <$> drop j cs).
Proof.
  intros Hrep. induction n as [|n IH]; intros j Hj.
  - rewrite drop_ge by lia. simpl. unfold node_at. by rewrite lookup_ge_None_2 by lia.
  - destruct (lookup_lt_is_Some_2 cs j) as [c Hc]; [lia|].
    rewrite (drop_S _ _ _ Hc). simpl. split; [by apply rep_node_at|].
    eexists. split; [apply (rep_nodes _ _ _ Hrep _ _ Hc)|]. simpl.
    apply IH. lia.
Qed.

Lemma rep_structural w l cs : rep w l cs → structural w l.
Proof.
  intros Hrep.
  pose proof (rep_len _ _ _ Hrep) as Hlen.
  pose proof (rep_head _ _ _ Hrep) as Hhead.
  pose proof (rep_tail _ _ _ Hrep) as Htail.
  split.
  - rewrite Hlen, Hhead. destruct cs; simpl; split; (done || lia).
  - rewrite Hhead, Htail. destruct cs as [|c cs]; [done|].
    rewrite last_cons. unfold node_at. simpl. by destruct (last cs).
  - exists (c_node <$> cs). split; [|split; [|split; [|split]]].
    + rewrite Hhead. rewrite <- (drop_0 cs) at 2. by eapply chain_rep.
    + by rewrite fmap_last.
    + by rewrite length_fmap.
    + apply (rep_nodup _ _ _ Hrep).
    + intros a nd (c & -> & Hc)%list_elem_of_fmap Hnd.
      apply list_elem_of_lookup in Hc as [k Hk].
      rewrite (rep_nodes _ _ _ Hrep _ _ Hk) in Hnd. simplify_eq. simpl. split.
      * destruct k as [|j]; simpl.
        { rewrite Hhead. by apply rep_node_at. }
        destruct (lookup_lt_is_Some_2 cs j) as [cj Hcj]; [apply lookup_lt_Some in Hk; lia|].
        rewrite (rep_node_at _ _ Hcj). split.
        { apply list_elem_of_fmap_2. by eapply list_elem_of_lookup_2. }
        eexists. split; [apply (rep_nodes _ _ _ Hrep _ _ Hcj)|]. simpl.
        by apply rep_node_at.
      * destruct (cs !! S k) as [cn|] eqn:Hcn.
        { rewrite (rep_node_at _ _ Hcn). split.
          { apply list_elem_of_fmap_2. by eapply list_elem_of_lookup_2. }
          eexists. split; [apply (rep_nodes _ _ _ Hrep _ _ Hcn)|]. simpl.
          by apply rep_node_at. }
        unfold node_at at 1. rewrite Hcn. simpl.
        rewrite Htail, last_lookup. apply lookup_ge_None_1 in Hcn.
        apply lookup_lt_Some in Hk as Hlt.
        replace (pred (length cs)) with k by lia. by rewrite Hk.
Qed.

(** ** Public operations on a well-formed list *)

Lemma llist_init_rep w l0 :
  heap_ok (heap w) →
  llist_init (Some l0) w = Some ((LLIST_OK, Some {| head := None; tail := None; len := 0 |}), w) ∧
  rep w {| head := None; tail := None; len := 0 |} [].
Proof. intros Hok. split; [reflexivity|by apply rep_nil]. Qed.

Lemma llist_get_Inv w l i :
  Inv w l → is_size_t i → ∃ p, llist_get (Some l) i w = Some (p, w).
Proof.
  intros [cs Hrep] Hi. destruct (decide (cs = [])) as [->|Hne].
  - exists None. unfold llist_get.
    by rewrite (bind_run _ _ _ _ _ (lnode_get_rep_empty Hrep i eq_refl)).
  - eexists. by apply (llist_get_rep Hrep).
Qed.

Lemma llist_add_Inv w l d n :
  Inv w l → buf_ok d n →
  ∃ st l' w', llist_add (Some l) d n w = Some ((st, Some l'), w') ∧ Inv w' l'.
Proof.
  intros HI Hb. destruct d as [bs|]; [|by eexists _, _, _].
  destruct (decide (n = 0)) as [->|Hn]; [by eexists _, _, _|].
  destruct HI as [cs Hrep].
  destruct (llist_add_rep _ _ _ bs n Hrep Hn Hb) as (r & w1 & Hnew & Hr).
  destruct r as [a|].
  - destruct Hr as (q & l' & w' & Hadd & _ & _ & Hrep').
    exists LLIST_OK, l', w'. split; [done|by eexists].
  - destruct Hr as [Hh Hadd]. exists LLIST_ALLOC_ERR, l, w1. split; [done|].
    exists cs. destruct Hrep. split; try done; by rewrite Hh.
Qed.

Lemma llist_ins_Inv w l d n i :
  Inv w l → buf_ok d n → is_size_t i →
  ∃ st l' w', llist_ins (Some l) d n i w = Some ((st, Some l'), w') ∧ Inv w' l'.
Proof.
  intros HI Hb Hi. destruct (decide (len l = 0 ∨ len l ≤ i)) as [Hadd|Hin].
  - assert (llist_ins (Some l) d n i w = llist_add (Some l) d n w) as ->.
    { unfold llist_ins. destruct d; [|done]. destruct (n =? 0) eqn:E; [|].
      - unfold llist_add. by rewrite E.
      - assert ((len l =? 0) || (len l <=? i) = true) as ->; [|done].
        apply orb_true_iff. destruct Hadd; [left|right]; lia. }
    by apply llist_add_Inv.
  - destruct d as [bs|]; [|by eexists _, _, _].
    destruct (decide (n = 0)) as [->|Hn]; [by eexists _, _, _|].
    destruct HI as [cs Hrep].
    unfold is_size_t in Hi.
    destruct (llist_ins_rep _ _ _ bs n i Hrep Hn Hb) as (r & w1 & Hnew & Hr); [lia|].
    destruct r as [a|].
    + destruct Hr as (q & l' & w' & Hins & _ & _ & Hrep').
      exists LLIST_OK, l', w'. split; [done|by eexists].
    + destruct Hr as [Hh Hins]. exists LLIST_ALLOC_ERR, l, w1. split; [done|].
      exists cs. destruct Hrep. split; try done; by rewrite Hh.
Qed.

Lemma llist_del_Inv w l i :
  Inv w l → is_size_t i →
  ∃ p l' w', llist_del (Some l) i w = Some ((p, Some l'), w') ∧ Inv w' l'.
Proof.
  intros [cs Hrep] Hi. destruct (decide (cs = [])) as [->|Hne].
  - exists None, l, w. split; [by apply llist_del_rep_empty|by eexists].
  - destruct (llist_del_rep _ _ _ i Hrep Hne Hi) as (c0 & l' & w' & _ & Hdel & Hrep' & _).
    exists (Some (c_buf c0)), l', w'. split; [done|by eexists].
Qed.

Lemma llist_clear_Inv w l :
  Inv w l → ∃ l' w', llist_clear (Some l) w = Some (Some l', w') ∧ Inv w' l'.
Proof.
  intros [cs Hrep]. destruct (llist_clear_rep _ _ _ Hrep) as (w' & Hc & Hrep' & _).
  eexists _, w'. split; [done|by eexists].
Qed.

Lemma run_op_Inv o w l :
  Inv w l → args_ok o →
  ∃ r l' w', run_op o (Some l) w = Some ((r, Some l'), w') ∧ Inv w' l'.
Proof.
  intros HI [Hop Hargs]. destruct o as [|i|d n|d n i|i|]; simpl in *.
  - destruct HI as [cs Hrep].
    destruct (llist_init_rep w l (rep_heap _ _ _ Hrep)) as [Hi Hr].
    rewrite (bind_run _ _ _ _ _ Hi). eexists _, _, _. split; [done|by eexists].
  - destruct (llist_get_Inv _ _ i HI Hop) as [p Hp].
    rewrite (bind_run _ _ _ _ _ Hp). by eexists _, _, _.
  - destruct (llist_add_Inv _ _ d n HI Hargs) as (st & l' & w' & Ha & HI').
    rewrite (bind_run _ _ _ _ _ Ha). by eexists _, _, _.
  - destruct Hop as [_ Hi].
    destruct (llist_ins_Inv _ _ d n i HI Hargs Hi) as (st & l' & w' & Ha & HI').
    rewrite (bind_run _ _ _ _ _ Ha). by eexists _, _, _.
  - destruct (llist_del_Inv _ _ i HI Hop) as (p & l' & w' & Hd & HI').
    rewrite (bind_run _ _ _ _ _ Hd). by eexists _, _, _.
  - destruct (llist_clear_Inv _ _ HI) as (l' & w' & Hc & HI').
    rewrite (bind_run _ _ _ _ _ Hc). by eexists _, _, _.
Qed.

(** ** Outcomes of [llist_add] and [llist_ins] in any state *)

Ltac ret_inv H := cbv [mret M_ret] in H; simplify_eq.

Lemma llist_add_result l d n w st l' w' :
  llist_add l d n w = Some ((st, l'), w') →
  (st = LLIST_NULL_ERR ∧ (l = None ∨ d = None ∨ n = 0) ∧ l' = l ∧ w' = w) ∨
  (st = LLIST_ALLOC_ERR ∧ is_Some l ∧ is_Some d ∧ n ≠ 0 ∧
     lnode_new d n w = Some (None, w') ∧ l' = l) ∨
  (st = LLIST_OK ∧ is_Some l ∧ is_Some d ∧ n ≠ 0 ∧
     ∃ a w1, lnode_new d n w = Some (Some a, w1)).
Proof.
  unfold llist_add. intros H.
  destruct l as [lv|]; [|left; ret_inv H; auto].
  destruct d as [bs|]; [|left; ret_inv H; auto].
  destruct (Z.eqb_spec n 0) as [->|Hn]; [left; ret_inv H; by auto|].
  right. apply bind_inv in H as ([a|] & w1 & Hnew & H).
  - right. apply bind_inv in H as (lv' & w2 & _ & H). ret_inv H. eauto 10.
  - left. ret_inv H. eauto 10.
Qed.

Lemma llist_ins_add l d n i w :
  (∀ lv, l = Some lv → len lv = 0 ∨ len lv ≤ i) →
  llist_ins l d n i w = llist_add l d n w.
Proof.
  intros Hc. unfold llist_ins. destruct l as [lv|]; [|done]. destruct d; [|done].
  destruct (n =? 0) eqn:E; [unfold llist_add; by rewrite E|].
  assert ((len lv =? 0) || (len lv <=? i) = true) as ->; [|done].
  apply orb_true_iff. destruct (Hc lv eq_refl); [left|right]; lia.
Qed.

Lemma llist_ins_result l d n i w st l' w' :
  llist_ins l d n i w = Some ((st, l'), w') →
  (st = LLIST_NULL_ERR ∧ (l = None ∨ d = None ∨ n = 0) ∧ l' = l ∧ w' = w) ∨
  (st = LLIST_ALLOC_ERR ∧ is_Some l ∧ is_Some d ∧ n ≠ 0 ∧
     lnode_new d n w = Some (None, w') ∧ l' = l) ∨
  (st = LLIST_OK ∧ is_Some l ∧ is_Some d ∧ n ≠ 0 ∧
     ∃ a w1, lnode_new d n w = Some (Some a, w1)).
Proof.
  intros H.
  destruct l as [lv|]; [|left; unfold llist_ins in H; ret_inv H; auto].
  destruct d as [bs|]; [|left; unfold llist_ins in H; ret_inv H; auto].
  destruct (Z.eqb_spec n 0) as [->|Hn];
    [left; unfold llist_ins in H; simpl in H; ret_inv H; by auto|].
  destruct ((len lv =? 0) || (len lv <=? i)) eqn:E.
  { rewrite llist_ins_add in H; [by apply llist_add_result|].
    intros ? [= <-]. apply orb_true_iff in E as [?|?]; [left|right]; lia. }
  unfold llist_ins in H. destruct (Z.eqb_spec n 0) as [|_]; [done|]. rewrite E in H.
  right. apply bind_inv in H as ([a|] & w1 & Hnew & H).
  - right. apply bind_inv in H as (lv' & w2 & _ & H). ret_inv H. eauto 10.
  - left. ret_inv H. eauto 10.
Qed.

Lemma rep_heap_eq w w' l cs : heap w' = heap w → rep w l cs → rep w' l cs.
Proof. intros Hh Hrep. destruct Hrep. split; try done; by rewrite Hh. Qed.

Lemma Inv_heap_eq w w' l : heap w' = heap w → Inv w l → Inv w' l.
Proof. intros Hh [cs Hrep]. exists cs. by eapply rep_heap_eq. Qed.

(** A public call with arguments in range keeps a well-formed list
    well-formed whenever it returns. *)
Lemma run_op_Inv_result o w l r l' w' :
  Inv w l → op_ok o →
  run_op o (Some l) w = Some ((r, Some l'), w') → Inv w' l'.
Proof.
  intros HI Hop Hrun.
  assert (Hargs : args_ok o → Inv w' l').
  { intros Ha. destruct (run_op_Inv o w l HI Ha) as (r2 & l2 & w2 & Hrun2 & HI2).
    rewrite Hrun in Hrun2. by simplify_eq. }
  destruct o as [|i|d n|d n i|i|]; try (apply Hargs; by split).
  - simpl in Hrun. apply bind_inv in Hrun as ([st l1] & w1 & Hadd & Hret).
    ret_inv Hret. apply llist_add_result in Hadd as Hres.
    destruct Hres as [(_ & _ & ? & ?)|[(_ & _ & [bs ->] & _ & Hnew & ?)|(_ & _ & [bs ->] & _ & a & w2 & Hnew)]];
      simplify_eq; [done| |].
    + apply lnode_new_result in Hnew. by eapply Inv_heap_eq.
    + apply lnode_new_result in Hnew as (q & Hn & _). apply Hargs. by split.
  - simpl in Hrun. apply bind_inv in Hrun as ([st l1] & w1 & Hins & Hret).
    ret_inv Hret. apply llist_ins_result in Hins as Hres.
    destruct Hres as [(_ & _ & ? & ?)|[(_ & _ & [bs ->] & _ & Hnew & ?)|(_ & _ & [bs ->] & _ & a & w2 & Hnew)]];
      simplify_eq; [done| |].
    + apply lnode_new_result in Hnew. by eapply Inv_heap_eq.
    + apply lnode_new_result in Hnew as (q & Hn & _). apply Hargs. by split.
Qed.

Lemma reachable_Inv w l : reachable w l → Inv w l.
Proof.
  induction 1 as [w l0 st l w' Hok Hinit|w l o r l' w' _ IH Hop Hrun].
  - destruct (llist_init_rep w l0 Hok) as [Hi Hrep]. rewrite Hi in Hinit.
    simplify_eq. by eexists.
  - by eapply run_op_Inv_result.
Qed.

(** ** The concrete run *)

Lemma size_t_small z : 0 ≤ z < 18446744073709551616 → is_size_t z.
Proof. unfold is_size_t. rewrite SIZE_MOD_eq. done. Qed.

Lemma heap_ok_empty : heap_ok ∅.
Proof. intros a b H. by rewrite lookup_empty in H. Qed.

Lemma ex_init_reachable : reachable ex_start ex_l0.
Proof.
  apply (reach_init ex_start ex_garbage LLIST_OK ex_l0 ex_start); [|reflexivity].
  exact heap_ok_empty.
Qed.

Lemma ex_reachable : reachable ex_w ex_l.
Proof.
  eapply (reach_step _ _ (OpAdd (Some ["C"%byte]) 1)).
  - eapply (reach_step _ _ (OpAdd (Some ["B"%byte]) 1)).
    + eapply (reach_step _ _ (OpAdd (Some ["A"%byte]) 1)).
      * apply ex_init_reachable.
      * by apply size_t_small.
      * reflexivity.
    + by apply size_t_small.
    + reflexivity.
  - by apply size_t_small.
  - reflexivity.
Qed.

(** ** Round trip of the copied payloads *)

(** A successful [llist_add] appends one element holding the first [n] bytes
    of the caller's object. *)
Lemma llist_add_ok_rep w l cs bs n l' w' :
  rep w l cs →
  llist_add (Some l) (Some bs) n w = Some ((LLIST_OK, l'), w') →
  ∃ lv c, l' = Some lv ∧ rep w' lv (cs ++ [c]) ∧
          c_bytes c = take (Z.to_nat n) bs ∧
          heap w !! c_node c = None ∧ heap w !! c_buf c = None.
Proof.
  intros Hrep Hadd.
  destruct (llist_add_result _ _ _ _ _ _ _ Hadd)
    as [(? & _)|[(? & _)|(_ & _ & _ & Hn & a & w1 & Hnew)]]; [done|done|].
  apply lnode_new_result in Hnew as Hres. destruct Hres as (q0 & Hlen & _).
  destruct (llist_add_rep _ _ _ bs n Hrep Hn Hlen) as (r & w2 & Hnew2 & Hr).
  rewrite Hnew in Hnew2. simplify_eq.
  destruct Hr as (q & lv & w3 & Hadd3 & Hfa & Hfq & Hrep3).
  rewrite Hadd in Hadd3. simplify_eq. by eexists _, _.
Qed.

Lemma add_all_rep xs : ∀ w l cs sts l' w',
  rep w l cs →
  add_all xs (Some l) w = Some ((sts, l'), w') →
  Forall (λ st, st = LLIST_OK) sts →
  ∃ lv cs', l' = Some lv ∧ rep w' lv (cs ++ cs') ∧
            c_bytes <$> cs' = (λ x, take (Z.to_nat x.2) x.1) <$> xs.
Proof.
  induction xs as [|[d n] xs IH]; intros w l cs sts l' w' Hrep Hrun Hok.
  - simpl in Hrun. ret_inv Hrun. exists l, []. by rewrite app_nil_r.
  - simpl in Hrun. apply bind_inv in Hrun as ([st l1] & w1 & Hadd & Hrun).
    apply bind_inv in Hrun as ([sts2 l2] & w2 & Hrest & Hret). ret_inv Hret.
    apply Forall_cons in Hok as [-> Hok].
    destruct (llist_add_ok_rep _ _ _ _ _ _ _ Hrep Hadd) as (lv1 & c & -> & Hrep1 & Hc & _).
    destruct (IH _ _ _ _ _ _ Hrep1 Hrest Hok) as (lv & cs' & -> & Hrep2 & Hbytes).
    exists lv, (c :: cs'). split; [done|]. split.
    + by rewrite <- app_assoc in Hrep2.
    + rewrite !fmap_cons. simpl. by rewrite Hc, Hbytes.
Qed.

(** C1: after [init] and any run of [add] calls that all report success,
    the list holds as many elements as were added, and for every position
    [i] below the count [get i] yields a pointer to exactly the bytes given
    to the [i]-th [add]. *)
Theorem add_get_roundtrip w l0 xs sts l' w' :
  heap_ok (heap w) →
  ('(_, l) ← llist_init (Some l0); add_all xs l) w = Some ((sts, l'), w') →
  Forall (λ st, st = LLIST_OK) sts →
  ∃ lv, l' = Some lv ∧ len lv = Z.of_nat (length xs) ∧
    ∀ (i : nat) d n, xs !! i = Some (d, n) →
      ∃ q, llist_get l' (Z.of_nat i) w' = Some (Some q, w') ∧
           read_bytes w' (Some q) = Some (take (Z.to_nat n) d).
Proof.
  intros Hheap Hrun Hok.
  apply bind_inv in Hrun as ([st l1] & w1 & Hinit & Hrun).
  destruct (llist_init_rep w l0 Hheap) as [Hi Hrep0]. rewrite Hi in Hinit.
  simplify_eq.
  destruct (add_all_rep _ _ _ _ _ _ _ Hrep0 Hrun Hok) as (lv & cs & -> & Hrep & Hbytes).
  simpl in Hrep.
  assert (Hlen : length cs = length xs).
  { by rewrite <- (length_fmap c_bytes), Hbytes, length_fmap. }
  exists lv. split; [done|]. split; [by rewrite (rep_len _ _ _ Hrep), Hlen|].
  intros i d n Hi'.
  pose proof (lookup_lt_Some _ _ _ Hi') as Hlt.
  pose proof (rep_length_bound Hrep) as Hbound.
  pose proof (rep_len _ _ _ Hrep) as Hl.
  destruct (lookup_lt_is_Some_2 cs i) as [c Hc]; [lia|].
  assert (Hcb : c_bytes c = take (Z.to_nat n) d).
  { assert ((c_bytes <$> cs) !! i = Some (c_bytes c)) as Hx
      by (by rewrite list_lookup_fmap, Hc).
    rewrite Hbytes, list_lookup_fmap, Hi' in Hx. simpl in Hx. by simplify_eq. }
  exists (c_buf c).
  assert (cs ≠ []) by (intros ->; simpl in *; lia).
  rewrite (llist_get_rep Hrep) by (done || (unfold is_size_t; lia)).
  assert (Z.to_nat (clamp (len lv) (Z.of_nat i)) = i) as ->.
  { unfold clamp. destruct (Z.leb_spec (len lv) (Z.of_nat i)); lia. }
  rewrite Hc. split; [done|].
  unfold read_bytes. by rewrite (rep_bufs _ _ _ Hrep _ _ Hc), Hcb.
Qed.

Lemma add_get_roundtrip_witness :
  ∃ lv, Some ex_l = Some lv ∧ len lv = Z.of_nat (length ex_items) ∧
    ∀ (i : nat) d n, ex_items !! i = Some (d, n) →
      ∃ q, llist_get (Some ex_l) (Z.of_nat i) ex_w = Some (Some q, ex_w) ∧
           read_bytes ex_w (Some q) = Some (take (Z.to_nat n) d).
Proof.
  apply (add_get_roundtrip ex_start ex_garbage ex_items [LLIST_OK; LLIST_OK; LLIST_OK]).
  - exact heap_ok_empty.
  - reflexivity.
  - repeat constructor.
Defined.

(** ** Clamped indices *)

Lemma Inv_snoc w l : Inv w l → len l ≠ 0 → ∃ cs c, rep w l (cs ++ [c]).
Proof.
  intros [cs0 Hrep] Hne. pose proof (rep_len _ _ _ Hrep) as Hlen.
  destruct cs0 as [|c cs] using rev_ind; [simpl in Hlen; lia|]. by exists cs, c.
Qed.

(** C2: on a non-empty list an index at or beyond the count is resolved to
    the last element: [get] returns the last element's payload, and [del]
    unlinks and releases the tail node, returns its payload (which stays
    allocated, now owned by the caller) and leaves the elements before it,
    with the count one lower.  Both return a non-null pointer. *)
Theorem clamp_get_del w l i :
  Inv w l → len l ≠ 0 → is_size_t i → len l ≤ i →
  ∃ cs c, rep w l (cs ++ [c]) ∧ tail l = Some (c_node c) ∧
    llist_get (Some l) i w = Some (Some (c_buf c), w) ∧
    ∃ l' w', llist_del (Some l) i w = Some ((Some (c_buf c), Some l'), w') ∧
      rep w' l' cs ∧ len l' = len l - 1 ∧
      heap w' !! c_node c = None ∧
      read_bytes w' (Some (c_buf c)) = Some (c_bytes c).
Proof.
  intros HI Hne Hi Hge.
  destruct (Inv_snoc _ _ HI Hne) as (cs & c & Hrep). exists cs, c.
  pose proof (rep_len _ _ _ Hrep) as Hlen. rewrite length_app in Hlen. simpl in Hlen.
  pose proof (rep_length_bound Hrep) as Hbound. rewrite length_app in Hbound. simpl in Hbound.
  assert (Hnil : cs ++ [c] ≠ []) by (by destruct cs).
  assert (Hidx : Z.to_nat (clamp (len l) i) = length cs).
  { unfold clamp. destruct (Z.leb_spec (len l) i); [|lia]. rewrite wrap_small; lia. }
  assert (Hc : (cs ++ [c]) !! length cs = Some c).
  { rewrite lookup_app_r by lia. by rewrite Nat.sub_diag. }
  split; [done|]. split; [by rewrite (rep_tail _ _ _ Hrep), last_snoc|].
  split.
  - rewrite (llist_get_rep Hrep) by done. by rewrite Hidx, Hc.
  - destruct (llist_del_rep _ _ _ i Hrep Hnil Hi)
      as (c0 & l' & w' & Hc0 & Hdel & Hrep' & Hbuf & Hnode & _).
    rewrite Hidx in *. rewrite Hc in Hc0. simplify_eq.
    exists l', w'. split; [done|].
    assert (delete (length cs) (cs ++ [c0]) = cs) as Hd.
    { rewrite delete_take_drop, take_app_length.
      rewrite drop_ge by (rewrite length_app; simpl; lia). by rewrite app_nil_r. }
    rewrite Hd in Hrep'. split; [done|].
    split; [rewrite (rep_len _ _ _ Hrep'); lia|]. split; [done|].
    unfold read_bytes. by rewrite Hbuf.
Qed.

Lemma clamp_get_del_witness :
  ∃ cs c, rep ex_w ex_l (cs ++ [c]) ∧ tail ex_l = Some (c_node c) ∧
    llist_get (Some ex_l) 7 ex_w = Some (Some (c_buf c), ex_w) ∧
    ∃ l' w', llist_del (Some ex_l) 7 ex_w = Some ((Some (c_buf c), Some l'), w') ∧
      rep w' l' cs ∧ len l' = len ex_l - 1 ∧
      heap w' !! c_node c = None ∧
      read_bytes w' (Some (c_buf c)) = Some (c_bytes c).
Proof.
  apply (clamp_get_del ex_w ex_l 7).
  - exact (reachable_Inv _ _ ex_reachable).
  - discriminate.
  - by apply size_t_small.
  - vm_compute. discriminate.
Defined.

(** ** Insertion at or beyond the end *)

(** C3: if the list is empty or the index is at or beyond the count,
    [insert] is [add]: the same result in the same resulting world, for any
    handle, data pointer and length; and when it reports success on a
    well-formed list the new element is the tail and holds the bytes. *)
Theorem ins_out_of_range_is_add l d n i w :
  (∀ lv, l = Some lv → len lv = 0 ∨ len lv ≤ i) →
  llist_ins l d n i w = llist_add l d n w ∧
  ∀ lv l' w', l = Some lv → Inv w lv →
    llist_ins l d n i w = Some ((LLIST_OK, l'), w') →
    ∃ cs c lv' bs, d = Some bs ∧ l' = Some lv' ∧
      rep w lv cs ∧ rep w' lv' (cs ++ [c]) ∧
      tail lv' = Some (c_node c) ∧ c_bytes c = take (Z.to_nat n) bs.
Proof.
  intros Hc. split; [by apply llist_ins_add|].
  intros lv l' w' -> [cs Hrep] Hins. rewrite llist_ins_add in Hins by done.
  destruct (llist_add_result _ _ _ _ _ _ _ Hins)
    as [(? & _)|[(? & _)|(_ & _ & [bs ->] & _)]]; [done|done|].
  destruct (llist_add_ok_rep _ _ _ _ _ _ _ Hrep Hins) as (lv' & c & -> & Hrep' & Hb & _).
  exists cs, c, lv', bs. do 4 (split; [done|]). split; [|done].
  by rewrite (rep_tail _ _ _ Hrep'), last_snoc.
Qed.

Lemma ins_out_of_range_is_add_witness :
  llist_ins (Some ex_l) (Some ["Y"%byte]) 1 5 ex_w =
    llist_add (Some ex_l) (Some ["Y"%byte]) 1 ex_w ∧
  ∀ lv l' w', Some ex_l = Some lv → Inv ex_w lv →
    llist_ins (Some ex_l) (Some ["Y"%byte]) 1 5 ex_w = Some ((LLIST_OK, l'), w') →
    ∃ cs c lv' bs, Some ["Y"%byte] = Some bs ∧ l' = Some lv' ∧
      rep ex_w lv cs ∧ rep w' lv' (cs ++ [c]) ∧
      tail lv' = Some (c_node c) ∧ c_bytes c = take (Z.to_nat 1) bs.
Proof.
  apply (ins_out_of_range_is_add (Some ex_l) (Some ["Y"%byte]) 1 5 ex_w).
  intros lv [= <-]. right. vm_compute. discriminate.
Defined.

(** ** The invariant under the public operations *)

(** C4: from a well-formed list state every public operation, called with
    arguments of its types and with a buffer of at least [n] bytes, returns
    and leaves a well-formed state; a well-formed state satisfies the
    structural invariant: the count is zero exactly when the head is null,
    exactly when the tail is null; following [next] from the head visits
    [len] distinct nodes and ends at the tail; and neighbouring nodes point
    at each other. *)
Theorem ops_preserve_invariant o w l :
  Inv w l → args_ok o →
  structural w l ∧
  ∃ r l' w', run_op o (Some l) w = Some ((r, Some l'), w') ∧
             Inv w' l' ∧ structural w' l'.
Proof.
  intros HI Hargs. split.
  - destruct HI as [cs Hrep]. by eapply rep_structural.
  - destruct (run_op_Inv o w l HI Hargs) as (r & l' & w' & Hrun & HI').
    exists r, l', w'. split; [done|]. split; [done|].
    destruct HI' as [cs Hrep]. by eapply rep_structural.
Qed.

Lemma ops_preserve_invariant_witness :
  structural ex_w ex_l ∧
  ∃ r l' w', run_op (OpDel 1) (Some ex_l) ex_w = Some ((r, Some l'), w') ∧
             Inv w' l' ∧ structural w' l'.
Proof.
  apply (ops_preserve_invariant (OpDel 1) ex_w ex_l).
  - exact (reachable_Inv _ _ ex_reachable).
  - split; [by apply size_t_small|exact I].
Defined.

(** ** Insertion at the head *)

(** C5: on a non-empty list a successful [insert] at index 0 makes the new
    element the one [get 0] returns, and the payload [get 0] returned before
    is what [get 1] returns afterwards, with its bytes unchanged. *)
Theorem ins_head_get w l d n l' w' :
  Inv w l → len l ≠ 0 →
  llist_ins (Some l) d n 0 w = Some ((LLIST_OK, l'), w') →
  ∃ bs q p0, d = Some bs ∧
    llist_get (Some l) 0 w = Some (Some p0, w) ∧
    llist_get l' 0 w' = Some (Some q, w') ∧
    read_bytes w' (Some q) = Some (take (Z.to_nat n) bs) ∧
    llist_get l' 1 w' = Some (Some p0, w') ∧
    read_bytes w' (Some p0) = read_bytes w (Some p0).
Proof.
  intros [cs Hrep] Hne Hins.
  pose proof (rep_len _ _ _ Hrep) as Hlen.
  pose proof (rep_length_bound Hrep) as Hbound.
  destruct cs as [|c0 cs]; [simpl in Hlen; lia|]. simpl in Hlen, Hbound.
  destruct (llist_ins_result _ _ _ _ _ _ _ _ Hins)
    as [(? & _)|[(? & _)|(_ & _ & [bs ->] & Hn & a & w1 & Hnew)]]; [done|done|].
  apply lnode_new_result in Hnew as Hres. destruct Hres as (q0 & Hb & _).
  destruct (llist_ins_rep _ _ _ bs n 0 Hrep Hn Hb) as (r & w2 & Hnew2 & Hr); [lia|].
  rewrite Hnew in Hnew2. simplify_eq.
  destruct Hr as (q & lv & w3 & Hins3 & Hfa & Hfq & Hrep').
  rewrite Hins in Hins3. simplify_eq.
  change (Z.to_nat 0) with 0%nat in Hrep'. rewrite ins_at_0 in Hrep'.
  pose proof (rep_len _ _ _ Hrep') as Hlen'. simpl in Hlen'.
  pose proof (rep_length_bound Hrep') as Hbound'. simpl in Hbound'.
  exists bs, q, (c_buf c0). split; [done|].
  assert (H0 : is_size_t 0) by (unfold is_size_t; lia).
  assert (H1 : is_size_t 1) by (unfold is_size_t; lia).
  rewrite (llist_get_rep Hrep), !(llist_get_rep Hrep') by done.
  assert (clamp (len l) 0 = 0) as ->
    by (unfold clamp; destruct (Z.leb_spec (len l) 0); lia).
  assert (clamp (len lv) 0 = 0) as ->
    by (unfold clamp; destruct (Z.leb_spec (len lv) 0); lia).
  assert (clamp (len lv) 1 = 1) as ->
    by (unfold clamp; destruct (Z.leb_spec (len lv) 1); lia).
  do 3 (split; [try done|]).
  - pose proof (rep_bufs _ _ _ Hrep' 0%nat _ eq_refl) as Hq. simpl in Hq.
    unfold read_bytes. by rewrite Hq.
  - split; [done|]. unfold read_bytes.
    rewrite (rep_bufs _ _ _ Hrep' 1%nat c0 eq_refl).
    by rewrite (rep_bufs _ _ _ Hrep 0%nat c0 eq_refl).
Qed.

Lemma ins_head_get_witness :
  ∃ bs q p0, Some ["Y"%byte] = Some bs ∧
    llist_get (Some ex_l) 0 ex_w = Some (Some p0, ex_w) ∧
    llist_get (Some ex_ins.2) 0 ex_ins.1 = Some (Some q, ex_ins.1) ∧
    read_bytes ex_ins.1 (Some q) = Some (take (Z.to_nat 1) bs) ∧
    llist_get (Some ex_ins.2) 1 ex_ins.1 = Some (Some p0, ex_ins.1) ∧
    read_bytes ex_ins.1 (Some p0) = read_bytes ex_w (Some p0).
Proof.
  apply (ins_head_get ex_w ex_l (Some ["Y"%byte]) 1 (Some ex_ins.2) ex_ins.1).
  - exact (reachable_Inv _ _ ex_reachable).
  - discriminate.
  - reflexivity.
Defined.

(** ** Index resolution *)

(** C6: on a non-empty list, with [k] the clamped index, [lnode_get] is the
    walk of [len - k - 1] steps backward from the tail when [k >= len / 2]
    and the walk of [k] steps forward from the head otherwise, on every
    heap, well-formed or not; on a well-formed list both walks are defined
    and end at the same node, the one [k] steps from the head, so
    [lnode_get] agrees with the walk from the head only. *)
Theorem lnode_get_bidirectional w l i :
  is_size_t (len l) → len l ≠ 0 → is_size_t i →
  let k := clamp (len l) i in
  0 ≤ k < len l ∧
  lnode_get (Some l) i w =
    (if len l / 2 <=? k
     then walk prev (Z.to_nat (len l - k - 1)) (tail l) w
     else walk next (Z.to_nat k) (head l) w) ∧
  (Inv w l →
   ∃ a,
     walk next (Z.to_nat k) (head l) w = Some (Some a, w) ∧
     walk prev (Z.to_nat (len l - k - 1)) (tail l) w = Some (Some a, w) ∧
     lnode_get (Some l) i w = Some (Some a, w) ∧
     lnode_get_naive (Some l) i w = Some (Some a, w)).
Proof.
  intros Hl Hne Hi k. unfold is_size_t in Hl, Hi.
  assert (Hk : 0 ≤ k < len l).
  { unfold k, clamp. destruct (Z.leb_spec (len l) i); [rewrite wrap_small|]; lia. }
  assert (Hget : lnode_get (Some l) i w =
                 (if len l / 2 <=? k
                  then walk prev (Z.to_nat (len l - k - 1)) (tail l) w
                  else walk next (Z.to_nat k) (head l) w)).
  { unfold lnode_get, llist_empty.
    destruct (Z.eqb_spec (len l) 0) as [|_]; [done|]. fold k.
    rewrite (wrap_small (len l - k)) by lia.
    rewrite (wrap_small (len l - k - 1)) by lia.
    by destruct (len l / 2 <=? k). }
  split; [done|]. split; [done|].
  intros [cs Hrep].
  pose proof (rep_len _ _ _ Hrep) as Hlen.
  destruct (lookup_lt_is_Some_2 cs (Z.to_nat k)) as [c Hc]; [lia|].
  exists (c_node c).
  assert (Hfwd : walk next (Z.to_nat k) (head l) w = Some (Some (c_node c), w)).
  { rewrite (rep_head _ _ _ Hrep), (walk_next_rep Hrep) by lia. simpl.
    by rewrite (rep_node_at _ _ Hc). }
  assert (Hbwd : walk prev (Z.to_nat (len l - k - 1)) (tail l) w = Some (Some (c_node c), w)).
  { rewrite (rep_tail_node_at Hrep).
    destruct (length cs) as [|m] eqn:E; [lia|]. simpl.
    rewrite (walk_prev_rep Hrep) by lia.
    replace (m - Z.to_nat (len l - k - 1))%nat with (Z.to_nat k) by lia.
    by rewrite (rep_node_at _ _ Hc). }
  split; [done|]. split; [done|]. split.
  - rewrite Hget. by destruct (len l / 2 <=? k).
  - unfold lnode_get_naive, llist_empty.
    destruct (Z.eqb_spec (len l) 0) as [|_]; [done|]. by fold k.
Qed.

Lemma lnode_get_bidirectional_witness :
  let k := clamp (len ex_l) 1 in
  0 ≤ k < len ex_l ∧
  lnode_get (Some ex_l) 1 ex_w =
    (if len ex_l / 2 <=? k
     then walk prev (Z.to_nat (len ex_l - k - 1)) (tail ex_l) ex_w
     else walk next (Z.to_nat k) (head ex_l) ex_w) ∧
  ∃ a,
    walk next (Z.to_nat k) (head ex_l) ex_w = Some (Some a, ex_w) ∧
    walk prev (Z.to_nat (len ex_l - k - 1)) (tail ex_l) ex_w = Some (Some a, ex_w) ∧
    lnode_get (Some ex_l) 1 ex_w = Some (Some a, ex_w) ∧
    lnode_get_naive (Some ex_l) 1 ex_w = Some (Some a, ex_w).
Proof.
  destruct (lnode_get_bidirectional ex_w ex_l 1) as (Hk & Hdir & Hsame).
  - by apply size_t_small.
  - discriminate.
  - by apply size_t_small.
  - split; [exact Hk|]. split; [exact Hdir|].
    exact (Hsame (reachable_Inv _ _ ex_reachable)).
Defined.

(** On the heap with the bent link the backward walk that [lnode_get] takes
    for index 1 of 3 ends at another node than the walk from the head: the
    agreement of the two needs the links to be consistent. *)
Example lnode_get_bent :
  lnode_get (Some ex_l) 1 ex_bent = Some (Some 1, ex_bent) ∧
  lnode_get_naive (Some ex_l) 1 ex_bent = Some (Some 3, ex_bent).
Proof. split; reflexivity. Qed.

(** ** Clearing *)

(** C8: [clear] on a well-formed list returns and leaves the empty list;
    [get 0] then yields null; a second [clear] changes nothing, neither the
    list nor the world; on an empty list and on an absent list [clear]
    changes nothing. *)
Theorem clear_idempotent w l :
  Inv w l →
  ∃ l1 w1, llist_clear (Some l) w = Some (Some l1, w1) ∧
    len l1 = 0 ∧ head l1 = None ∧ tail l1 = None ∧ Inv w1 l1 ∧
    llist_get (Some l1) 0 w1 = Some (None, w1) ∧
    llist_clear (Some l1) w1 = Some (Some l1, w1) ∧
    (len l = 0 → l1 = l ∧ w1 = w) ∧
    llist_clear None w = Some (None, w).
Proof.
  intros [cs Hrep].
  destruct (llist_clear_rep _ _ _ Hrep) as (w1 & Hc & Hrep1 & _ & Hnil).
  eexists _, w1. split; [done|]. do 3 (split; [done|]).
  split; [by eexists|]. split; [|split; [done|split; [|done]]].
  - unfold llist_get.
    by rewrite (bind_run _ _ _ _ _ (lnode_get_rep_empty Hrep1 0 eq_refl)).
  - intros Hz. pose proof (rep_len _ _ _ Hrep) as Hlen.
    assert (cs = []) as -> by (destruct cs; [done|simpl in Hlen; lia]).
    split; [by rewrite (rep_empty_list _ _ Hrep)|by apply Hnil].
Qed.

Lemma clear_idempotent_witness :
  ∃ l1 w1, llist_clear (Some ex_l) ex_w = Some (Some l1, w1) ∧
    len l1 = 0 ∧ head l1 = None ∧ tail l1 = None ∧ Inv w1 l1 ∧
    llist_get (Some l1) 0 w1 = Some (None, w1) ∧
    llist_clear (Some l1) w1 = Some (Some l1, w1) ∧
    (len ex_l = 0 → l1 = ex_l ∧ w1 = ex_w) ∧
    llist_clear None ex_w = Some (None, ex_w).
Proof.
  apply (clear_idempotent ex_w ex_l).
  exact (reachable_Inv _ _ ex_reachable).
Defined.

(** ** One element *)

(** C9, as the code has it: in every reachable state the count is 1 exactly
    when head and tail are the same node (equal and not null), and then that
    node has no neighbours. *)
Theorem single_node_iff w l :
  reachable w l →
  (len l = 1 ↔ head l = tail l ∧ head l ≠ None) ∧
  (len l = 1 →
   ∃ a nd, head l = Some a ∧ tail l = Some a ∧
           heap w !! a = Some (BNode nd) ∧ prev nd = None ∧ next nd = None).
Proof.
  intros [cs Hrep]%reachable_Inv.
  pose proof (rep_len _ _ _ Hrep) as Hlen.
  pose proof (rep_head _ _ _ Hrep) as Hhead.
  pose proof (rep_tail _ _ _ Hrep) as Htail.
  assert (Hone : len l = 1 → ∃ c, cs = [c]).
  { intros H1. destruct cs as [|c [|c' cs]]; simpl in Hlen; try lia. by exists c. }
  split; [split|].
  - intros [c ->]%Hone. by rewrite Hhead, Htail.
  - intros [Heq Hnn]. rewrite Hhead, Htail in Heq. rewrite Hhead in Hnn.
    destruct cs as [|c0 cs]; [done|].
    rewrite last_lookup in Heq. simpl in Heq.
    destruct ((c0 :: cs) !! length cs) as [ct|] eqn:Hct; [|done].
    unfold node_at in Heq. simpl in Heq. simplify_eq.
    assert (0%nat = length cs) by (by eapply (rep_node_inj Hrep 0 (length cs) c0 ct)).
    rewrite Hlen. simpl. lia.
  - intros [c ->]%Hone. exists (c_node c). eexists.
    split; [by rewrite Hhead|]. split; [by rewrite Htail|].
    split; [apply (rep_nodes _ _ _ Hrep 0%nat c eq_refl)|]. done.
Qed.

Lemma single_node_iff_witness :
  (len ex_l = 1 ↔ head ex_l = tail ex_l ∧ head ex_l ≠ None) ∧
  (len ex_l = 1 →
   ∃ a nd, head ex_l = Some a ∧ tail ex_l = Some a ∧
           heap ex_w !! a = Some (BNode nd) ∧ prev nd = None ∧ next nd = None).
Proof. apply (single_node_iff ex_w ex_l). exact ex_reachable. Defined.

(** C9, as stated, fails right after [init]: head and tail are equal (both
    null) and the count is 0. *)
Lemma head_eq_tail_empty :
  reachable ex_start ex_l0 ∧ head ex_l0 = tail ex_l0 ∧
  ¬ (len ex_l0 = 1 ↔ head ex_l0 = tail ex_l0).
Proof.
  split; [exact ex_init_reachable|]. split; [reflexivity|].
  intros [_ H]. specialize (H eq_refl). discriminate H.
Qed.

(** ** Errors of [add] and [insert] *)

(** [lnode_new] yields null exactly when one of its two allocations
    fails. *)
Lemma lnode_new_fail_iff bs n w :
  (∃ w', lnode_new (Some bs) n w = Some (None, w')) ↔
  node_alloc_fails w ∨ buf_alloc_fails n w.
Proof.
  unfold node_alloc_fails, buf_alloc_fails, lnode_new.
  destruct (malloc_cases (BNode {| data := None; prev := None; next := None |}) w)
    as (r & w1 & Hm & Hr).
  mrun Hm. rewrite Hm. destruct r as [a|].
  2:{ split; [intros _; left|intros _]; by eexists. }
  destruct Hr as (Ha & Hfresh & Hw1).
  erewrite bind_run; [|eapply put_prev_run; rewrite Hw1; apply lookup_insert_eq].
  erewrite bind_run; [|eapply put_next_run; simpl; apply lookup_insert_eq].
  match goal with |- context [mbind _ (malloc ?b) ?w0] =>
    assert (w0 = w1) as ->
  end.
  { destruct w1 as [h1 o1]. unfold set_heap. simpl in *. f_equal. subst h1. heap_eq. }
  destruct (malloc_cases (BData (replicate (Z.to_nat n) x00)) w1) as (r2 & w2 & Hm2 & Hr2).
  mrun Hm2. destruct r2 as [q|].
  - destruct Hr2 as (Hq & Hqf & Hw2).
    assert (a ≠ q) by (intros ->; by rewrite Hw1, lookup_insert_eq in Hqf).
    erewrite bind_run; [|eapply put_data_run; rewrite Hw2; rewrite lookup_insert_ne by done;
                         rewrite Hw1; apply lookup_insert_eq].
    split.
    + intros [w' H']. apply bind_inv in H' as (? & ? & _ & H'). by ret_inv H'.
    + intros [[? ?]|(a' & w1' & w2' & ? & Hm2')]; simplify_eq.
  - erewrite bind_run; [|eapply put_data_run; rewrite Hr2, Hw1; apply lookup_insert_eq].
    erewrite bind_run; [|eapply free_run; simpl; apply lookup_insert_eq].
    split; [intros _; right|intros _]; by eauto 10.
Qed.

Lemma error_contract_of call l d n w :
  is_Some (call w) →
  (∀ st l' w', call w = Some ((st, l'), w') →
     (st = LLIST_NULL_ERR ∧ (l = None ∨ d = None ∨ n = 0) ∧ l' = l ∧ w' = w) ∨
     (st = LLIST_ALLOC_ERR ∧ is_Some l ∧ is_Some d ∧ n ≠ 0 ∧
        lnode_new d n w = Some (None, w') ∧ l' = l) ∨
     (st = LLIST_OK ∧ is_Some l ∧ is_Some d ∧ n ≠ 0 ∧
        ∃ a w1, lnode_new d n w = Some (Some a, w1))) →
  error_contract call l d n w.
Proof.
  intros [[[st l'] w'] Hcall] Hres. exists st, l', w'. split; [done|].
  destruct (Hres _ _ _ Hcall)
    as [(-> & Hargs & -> & ->)
       |[(-> & Hl & [bs ->] & Hn & Hnew & ->)
        |(-> & Hl & [bs ->] & Hn & a & w1 & Hnew)]].
  - split; [done|]. split; [done|]. split; [|done]. split; [done|].
    intros ([lv ->] & [bs ->] & Hn & _). by destruct Hargs as [?|[?|?]].
  - split; [split; [done|]; intros [->|[?|?]]; by (done || destruct Hl)|].
    split; [done|]. split.
    + split; [intros _|done]. do 3 (split; [done|]).
      apply (lnode_new_fail_iff bs n w). by eexists.
    + intros _. split; [done|]. by apply lnode_new_result in Hnew.
  - split; [split; [done|]; intros [->|[?|?]]; by (done || destruct Hl)|].
    split; [done|]. split; [|done]. split; [done|].
    intros (_ & _ & _ & Hfail). apply (lnode_new_fail_iff bs n w) in Hfail as [w2 Hfail].
    rewrite Hnew in Hfail. done.
Qed.

(** C7: [add] and [insert], called on an absent list or on a well-formed
    one with a buffer of at least [n] bytes, return; the status is
    [LLIST_NULL_ERR] exactly when the handle or the data pointer is null or
    the length is 0, and then list and world are untouched; the status is
    [LLIST_ALLOC_ERR] exactly when the arguments are present and the
    allocation of the node or of the payload fails, and then the list
    structure and the heap are as before the call: the node allocated
    before a failed payload allocation has been released and nothing was
    linked in. *)
Theorem add_ins_errors w l d n i :
  (∀ lv, l = Some lv → Inv w lv) → buf_ok d n → is_size_t i →
  error_contract (llist_add l d n) l d n w ∧
  error_contract (llist_ins l d n i) l d n w.
Proof.
  intros HI Hb Hi. split.
  - apply error_contract_of; [|apply llist_add_result].
    destruct l as [lv|]; [|by eexists].
    destruct (llist_add_Inv w lv d n (HI lv eq_refl) Hb) as (? & ? & ? & -> & _).
    by eexists.
  - apply error_contract_of; [|apply llist_ins_result].
    destruct l as [lv|]; [|by eexists].
    destruct (llist_ins_Inv w lv d n i (HI lv eq_refl) Hb Hi) as (? & ? & ? & -> & _).
    by eexists.
Qed.

Lemma add_ins_errors_witness :
  error_contract (llist_add (Some ex_l) (Some ["Y"%byte]) 1) (Some ex_l) (Some ["Y"%byte]) 1
    (set_heap (heap ex_w) ex_fail) ∧
  error_contract (llist_ins (Some ex_l) (Some ["Y"%byte]) 1 1) (Some ex_l) (Some ["Y"%byte]) 1
    (set_heap (heap ex_w) ex_fail).
Proof.
  apply (add_ins_errors (set_heap (heap ex_w) ex_fail) (Some ex_l) (Some ["Y"%byte]) 1 1).
  - intros lv [= <-]. eapply Inv_heap_eq; [|exact (reachable_Inv _ _ ex_reachable)]. done.
  - simpl. lia.
  - by apply size_t_small.
Defined.

(** ** The splice in the middle *)

(** C10: on a well-formed list, with data present, a positive length and
    [1 <= i < len], [insert] returns, and once the new node is allocated the
    lookup of the predecessor yields a node, that node's [next] is a node,
    and neither is the new node: the splice follows no null or dangling
    link. *)
Theorem ins_mid_no_fault w l bs n i :
  Inv w l → 0 < n → n ≤ Z.of_nat (length bs) → 1 ≤ i < len l →
  is_Some (llist_ins (Some l) (Some bs) n i w) ∧
  ∀ ins w1, lnode_new (Some bs) n w = Some (Some ins, w1) →
    ∃ bef aft nb na,
      lnode_get (Some l) (wrap (i - 1)) w1 = Some (Some bef, w1) ∧
      get_next (Some bef) w1 = Some (Some aft, w1) ∧
      heap w1 !! bef = Some (BNode nb) ∧ heap w1 !! aft = Some (BNode na) ∧
      bef ≠ ins ∧ aft ≠ ins ∧
      ∃ l' w', llist_ins (Some l) (Some bs) n i w = Some ((LLIST_OK, Some l'), w').
Proof.
  intros [cs Hrep] Hn Hb Hi.
  destruct (llist_ins_rep _ _ _ bs n i Hrep ltac:(lia) Hb ltac:(lia)) as (r & w2 & Hnew & Hr).
  split.
  - destruct r as [a|].
    + destruct Hr as (q & l' & w' & Hx & _). rewrite Hx. by eexists.
    + destruct Hr as [_ Hx]. rewrite Hx. by eexists.
  - intros ins w1 Hnew1. rewrite Hnew in Hnew1. simplify_eq.
    destruct Hr as (q & l' & w' & Hins & Hfa & Hfq & Hrep').
    apply lnode_new_result in Hnew as (q' & _ & Ha & Hq & Haq & _ & Hfq' & Hw1).
    destruct w1 as [h1 o1]. simpl in Hw1. subst h1.
    assert (Hrep1 : rep {| heap := <[q':=BData (take (Z.to_nat n) bs)]>
                  (<[ins:=BNode {| data := Some q'; prev := None; next := None |}]> (heap w));
                  oracle := o1 |} l cs) by (by apply rep_alloc).
    destruct (ins_mid_lookup _ _ _ i Hrep1 Hi) as (cb & ca & Hcb & Hca & Hget & Hnext).
    exists (c_node cb), (c_node ca). eexists _, _.
    split; [done|]. split; [done|].
    split; [apply (rep_nodes _ _ _ Hrep1 _ _ Hcb)|].
    split; [apply (rep_nodes _ _ _ Hrep1 _ _ Hca)|].
    pose proof (rep_nodes _ _ _ Hrep _ _ Hcb). pose proof (rep_nodes _ _ _ Hrep _ _ Hca).
    split; [congruence|]. split; [congruence|]. by eexists _, _.
Qed.

Lemma ins_mid_no_fault_witness :
  is_Some (llist_ins (Some ex_l) (Some ["Y"%byte]) 1 1 ex_w) ∧
  ∀ ins w1, lnode_new (Some ["Y"%byte]) 1 ex_w = Some (Some ins, w1) →
    ∃ bef aft nb na,
      lnode_get (Some ex_l) (wrap (1 - 1)) w1 = Some (Some bef, w1) ∧
      get_next (Some bef) w1 = Some (Some aft, w1) ∧
      heap w1 !! bef = Some (BNode nb) ∧ heap w1 !! aft = Some (BNode na) ∧
      bef ≠ ins ∧ aft ≠ ins ∧
      ∃ l' w', llist_ins (Some ex_l) (Some ["Y"%byte]) 1 1 ex_w = Some ((LLIST_OK, Some l'), w').
Proof.
  apply (ins_mid_no_fault ex_w ex_l ["Y"%byte] 1 1).
  - exact (reachable_Inv _ _ ex_reachable).
  - lia.
  - simpl. lia.
  - change (1 ≤ 1 < 3). lia.
Defined.

(** ** The bound on the loop of [llist_clear] *)

(** One pass of the loop body removes the visited node from the heap. *)
Lemma put_field_size (f : lnode_t → lnode_t) p wa wb :
  (nd ← load_node p; store_node p (f nd)) wa = Some (tt, wb) →
  size (heap wb) = size (heap wa).
Proof.
  intros Hp. apply bind_inv in Hp as (nd & wc & Hl & Hs).
  unfold load_node in Hl. destruct p as [p|]; [|done].
  destruct (heap wa !! p) as [[?|?]|] eqn:E; simplify_eq.
  unfold store_node in Hs. rewrite E in Hs. simplify_eq. simpl.
  by apply map_size_insert_Some.
Qed.

Lemma lnode_free_whole_size a w w' :
  lnode_free_whole (Some a) w = Some (tt, w') →
  (size (heap w') < size (heap w))%nat.
Proof.
  unfold lnode_free_whole. intros H.
  apply bind_inv in H as (d & w1 & Hd & H).
  apply bind_inv in H as ([] & w2 & Hf & H).
  apply bind_inv in H as ([] & w3 & H3 & H).
  apply bind_inv in H as ([] & w4 & H4 & H).
  apply bind_inv in H as ([] & w5 & H5 & H).
  apply (put_field_size (with_prev None)) in H3.
  apply (put_field_size (with_next None)) in H4.
  apply (put_field_size (with_data None)) in H5.
  unfold free in H. destruct (heap w5 !! a) as [b|] eqn:E; [|done]. simplify_eq. simpl.
  assert (size (heap w2) ≤ size (heap w))%nat.
  { unfold get_data in Hd. apply bind_inv in Hd as (nd & wc & Hl & Hr). ret_inv Hr.
    unfold load_node in Hl. destruct (heap w !! a) as [[?|?]|]; simplify_eq.
    unfold free in Hf. destruct (data nd) as [q|]; simplify_eq; [|done].
    destruct (heap w1 !! q) eqn:Eq; simplify_eq. simpl.
    rewrite map_size_delete_Some by done. lia. }
  rewrite map_size_delete_Some by done.
  assert (size (heap w5) ≠ 0%nat); [|lia].
  intros Hz. apply map_size_empty_inv in Hz. rewrite Hz in E. by rewrite lookup_empty in E.
Qed.

(** With more fuel than the heap has objects the loop never runs out of
    fuel: its outcome does not depend on the amount. *)
Lemma clear_loop_fuel f1 : ∀ f2 p w,
  (size (heap w) < f1)%nat → (size (heap w) < f2)%nat →
  clear_loop f1 p w = clear_loop f2 p w.
Proof.
  induction f1 as [|f1 IH]; intros f2 p w H1 H2; [lia|].
  destruct f2 as [|f2]; [lia|]. destruct p as [a|]; [|done].
  cbn [clear_loop]. unfold mbind, M_bind.
  destruct (get_next (Some a) w) as [[nxt w1]|] eqn:Hn; [|done].
  assert (w1 = w) as ->.
  { unfold get_next in Hn. apply bind_inv in Hn as (nd & wc & Hl & Hr). ret_inv Hr.
    unfold load_node in Hl. by destruct (heap w !! a) as [[?|?]|]; simplify_eq. }
  destruct (lnode_free_whole (Some a) w) as [[[] w2]|] eqn:Hf; [|done].
  apply lnode_free_whole_size in Hf. apply IH; lia.
Qed.

(** ** The scenarios of the specification *)

Example scenario_abc_run :
  fst <$> scenario_abc ex_start =
  Some (Some ["B"%byte], Some ["A"%byte], Some ["B"%byte], Some 2).
Proof. reflexivity. Qed.

Example scenario_out_of_range_run :
  fst <$> scenario_out_of_range ex_start = Some (Some ["Y"%byte]).
Proof. reflexivity. Qed.

(** ** Further properties of the program *)

(** *** Absent and empty lists *)

Lemma lnode_get_empty l i w :
  llist_empty l = true → lnode_get l i w = Some (None, w).
Proof. intros He. unfold lnode_get. by rewrite He. Qed.

Lemma llist_get_empty l i w :
  llist_empty l = true → llist_get l i w = Some (None, w).
Proof.
  intros He. unfold llist_get.
  by rewrite (bind_run _ _ _ _ _ (lnode_get_empty l i w He)).
Qed.

Lemma llist_clear_empty l w :
  llist_empty l = true → llist_clear l w = Some (l, w).
Proof. intros He. unfold llist_clear. by rewrite He. Qed.

(** X1: On an absent list, or one whose count is 0 (whatever its head and tail
    hold), [get] and [del] return null and [del] and [clear] leave the list
    structure and the world as they are. *)
Theorem absent_or_empty_noop l i w :
  llist_empty l = true →
  llist_get l i w = Some (None, w) ∧
  llist_del l i w = Some ((None, l), w) ∧
  llist_clear l w = Some (l, w).
Proof.
  intros He. split; [by apply llist_get_empty|]. split; [|by apply llist_clear_empty].
  unfold llist_del. rewrite (bind_run _ _ _ _ _ (lnode_get_empty l i w He)).
  reflexivity.
Qed.

Lemma absent_or_empty_noop_witness :
  llist_get (Some ex_l0) 3 ex_w = Some (None, ex_w) ∧
  llist_del (Some ex_l0) 3 ex_w = Some ((None, Some ex_l0), ex_w) ∧
  llist_clear (Some ex_l0) ex_w = Some (Some ex_l0, ex_w).
Proof. apply (absent_or_empty_noop (Some ex_l0) 3 ex_w). reflexivity. Defined.

(** *** [get] is an observer *)

Lemma walk_world field k : ∀ p w r w',
  walk field k p w = Some (r, w') → w' = w.
Proof.
  induction k as [|k IH]; intros p w r w' H; simpl in H.
  - by ret_inv H.
  - apply bind_inv in H as (nd & w1 & Hl & H).
    unfold load_node in Hl. destruct p as [a|]; [|done].
    destruct (heap w !! a) as [[?|?]|]; simplify_eq. by eapply IH.
Qed.

Lemma lnode_get_world l i w r w' : lnode_get l i w = Some (r, w') → w' = w.
Proof.
  unfold lnode_get. destruct (llist_empty l); [intros H; by ret_inv H|].
  destruct l as [lv|]; [|done].
  destruct (_ <=? _); by apply walk_world.
Qed.

(** X2: In any state, well-formed or not, a call of [get] that returns has
    changed neither the heap nor the allocator. *)
Theorem llist_get_pure l i w p w' :
  llist_get l i w = Some (p, w') → w' = w.
Proof.
  unfold llist_get. intros H. apply bind_inv in H as (node & w1 & Hg & H).
  apply lnode_get_world in Hg as ->. destruct node as [a|]; [|by ret_inv H].
  unfold get_data in H. apply bind_inv in H as (nd & w2 & Hl & H). ret_inv H.
  unfold load_node in Hl. by destruct (heap w !! a) as [[?|?]|]; simplify_eq.
Qed.

Lemma llist_get_pure_witness : ex_w = ex_w.
Proof. exact (llist_get_pure (Some ex_l) 1 ex_w (Some 4) ex_w eq_refl). Defined.

(** The element at a position, through [get]. *)
Lemma get_at w l cs j c :
  rep w l cs → cs !! j = Some c →
  llist_get (Some l) (Z.of_nat j) w = Some (Some (c_buf c), w) ∧
  read_bytes w (Some (c_buf c)) = Some (c_bytes c).
Proof.
  intros Hrep Hc.
  pose proof (rep_len _ _ _ Hrep) as Hlen.
  pose proof (rep_length_bound Hrep) as Hbound.
  pose proof (lookup_lt_Some _ _ _ Hc) as Hlt.
  assert (cs ≠ []) by (intros ->; simpl in *; lia).
  rewrite (llist_get_rep Hrep) by (done || (unfold is_size_t; lia)).
  assert (Z.to_nat (clamp (len l) (Z.of_nat j)) = j) as ->.
  { unfold clamp. destruct (Z.leb_spec (len l) (Z.of_nat j)); lia. }
  rewrite Hc. split; [done|].
  unfold read_bytes. by rewrite (rep_bufs _ _ _ Hrep _ _ Hc).
Qed.

Lemma clamp_index w l cs i :
  rep w l cs → cs ≠ [] → is_size_t i →
  Z.to_nat (clamp (len l) i) = Nat.min (Z.to_nat i) (length cs - 1).
Proof.
  intros Hrep Hne Hi. pose proof (rep_len _ _ _ Hrep) as Hlen.
  pose proof (rep_length_bound Hrep) as Hbound. unfold is_size_t in Hi.
  assert (length cs ≠ 0%nat) by (by destruct cs).
  unfold clamp. destruct (Z.leb_spec (len l) i); [rewrite wrap_small|]; lia.
Qed.

(** X3: On a well-formed list [get] returns null exactly when the list is
    empty: no index is an error on a non-empty list. *)
Theorem get_null_iff_empty w l i :
  Inv w l → is_size_t i →
  ∃ p, llist_get (Some l) i w = Some (p, w) ∧ (p = None ↔ len l = 0).
Proof.
  intros [cs Hrep] Hi. pose proof (rep_len _ _ _ Hrep) as Hlen.
  destruct (decide (cs = [])) as [->|Hne].
  - exists None. split; [|done].
    apply llist_get_empty. simpl. by rewrite Hlen.
  - rewrite (llist_get_rep Hrep) by done.
    pose proof (clamp_range Hrep i Hne Hi) as Hc.
    destruct (lookup_lt_is_Some_2 cs (Z.to_nat (clamp (len l) i))) as [c Hk]; [lia|].
    rewrite Hk. eexists. split; [done|]. simpl. split; [done|lia].
Qed.

Lemma get_null_iff_empty_witness :
  ∃ p, llist_get (Some ex_l) 12 ex_w = Some (p, ex_w) ∧ (p = None ↔ len ex_l = 0).
Proof.
  apply (get_null_iff_empty ex_w ex_l 12).
  - exact (reachable_Inv _ _ ex_reachable).
  - by apply size_t_small.
Defined.

(** *** What [add], [insert] and [del] do to the sequence of elements *)

Lemma rep_list_unique w w' l l' cs : rep w l cs → rep w' l' cs → l' = l.
Proof.
  intros H H'. destruct l, l'.
  pose proof (rep_head _ _ _ H). pose proof (rep_head _ _ _ H').
  pose proof (rep_tail _ _ _ H). pose proof (rep_tail _ _ _ H').
  pose proof (rep_len _ _ _ H). pose proof (rep_len _ _ _ H').
  simpl in *. congruence.
Qed.

(** A successful [llist_ins] puts one new element, holding the first [n]
    bytes of the caller's object, at the position of the index, or at the
    end when the index is at or beyond the count. *)
Lemma llist_ins_ok_rep w l cs bs n i l' w' :
  rep w l cs → is_size_t i →
  llist_ins (Some l) (Some bs) n i w = Some ((LLIST_OK, l'), w') →
  ∃ lv c, l' = Some lv ∧
          rep w' lv (ins_at (Nat.min (Z.to_nat i) (length cs)) c cs) ∧
          c_bytes c = take (Z.to_nat n) bs ∧
          heap w !! c_node c = None ∧ heap w !! c_buf c = None.
Proof.
  intros Hrep Hi Hins. pose proof (rep_len _ _ _ Hrep) as Hlen. unfold is_size_t in Hi.
  destruct (decide (len l ≤ i)) as [Hge|Hlt].
  - rewrite llist_ins_add in Hins by (intros ? [= <-]; by right).
    destruct (llist_add_ok_rep _ _ _ _ _ _ _ Hrep Hins) as (lv & c & -> & Hrep' & Hc & Hf).
    exists lv, c. split; [done|]. split; [|done].
    replace (Nat.min (Z.to_nat i) (length cs)) with (length cs) by lia.
    by rewrite ins_at_end.
  - destruct (llist_ins_result _ _ _ _ _ _ _ _ Hins)
      as [(? & _)|[(? & _)|(_ & _ & _ & Hn & a & w1 & Hnew)]]; [done|done|].
    apply lnode_new_result in Hnew as Hres. destruct Hres as (q0 & Hb & _).
    destruct (llist_ins_rep _ _ _ bs n i Hrep Hn Hb) as (r & w2 & Hnew2 & Hr); [lia|].
    rewrite Hnew in Hnew2. simplify_eq.
    destruct Hr as (q & lv & w3 & Hins3 & Hfa & Hfq & Hrep').
    rewrite Hins in Hins3. simplify_eq. eexists lv, _. split; [done|].
    replace (Nat.min (Z.to_nat i) (length cs)) with (Z.to_nat i) by lia.
    by split.
Qed.

(** X4: A successful [add] on a well-formed list raises the count by exactly 1
    without wrapping, makes the new payload the last element, and leaves
    every earlier element at its index, with the same payload pointer and
    bytes. *)
Theorem add_appends w l bs n l' w' :
  Inv w l →
  llist_add (Some l) (Some bs) n w = Some ((LLIST_OK, l'), w') →
  ∃ lv q, l' = Some lv ∧ len lv = len l + 1 ∧ Inv w' lv ∧
    llist_get l' (len l) w' = Some (Some q, w') ∧
    read_bytes w' (Some q) = Some (take (Z.to_nat n) bs) ∧
    ∀ j, 0 ≤ j < len l →
      ∃ p, llist_get (Some l) j w = Some (Some p, w) ∧
           llist_get l' j w' = Some (Some p, w') ∧
           read_bytes w' (Some p) = read_bytes w (Some p).
Proof.
  intros [cs Hrep] Hadd. pose proof (rep_len _ _ _ Hrep) as Hlen.
  destruct (llist_add_ok_rep _ _ _ _ _ _ _ Hrep Hadd) as (lv & c & -> & Hrep' & Hc & _).
  pose proof (rep_len _ _ _ Hrep') as Hlen'. rewrite length_app in Hlen'. simpl in Hlen'.
  exists lv, (c_buf c). split; [done|]. split; [lia|]. split; [by eexists|].
  assert (Hnew : (cs ++ [c]) !! length cs = Some c).
  { rewrite lookup_app_r by lia. by rewrite Nat.sub_diag. }
  destruct (get_at _ _ _ _ _ Hrep' Hnew) as [Hg Hb].
  rewrite Hlen. split; [done|]. split; [by rewrite Hb, Hc|].
  intros j Hj.
  destruct (lookup_lt_is_Some_2 cs (Z.to_nat j)) as [cj Hcj]; [lia|].
  destruct (get_at _ _ _ _ _ Hrep Hcj) as [Hg1 Hb1].
  destruct (get_at _ _ _ _ _ Hrep' (lookup_app_l_Some _ [c] _ _ Hcj)) as [Hg2 Hb2].
  rewrite Z2Nat.id in Hg1, Hg2 by lia.
  exists (c_buf cj). by rewrite Hb1, Hb2.
Qed.

Lemma add_appends_witness :
  ∃ lv q, Some ex_add.2 = Some lv ∧ len lv = len ex_l + 1 ∧ Inv ex_add.1 lv ∧
    llist_get (Some ex_add.2) (len ex_l) ex_add.1 = Some (Some q, ex_add.1) ∧
    read_bytes ex_add.1 (Some q) = Some (take (Z.to_nat 1) ["Z"%byte]) ∧
    ∀ j, 0 ≤ j < len ex_l →
      ∃ p, llist_get (Some ex_l) j ex_w = Some (Some p, ex_w) ∧
           llist_get (Some ex_add.2) j ex_add.1 = Some (Some p, ex_add.1) ∧
           read_bytes ex_add.1 (Some p) = read_bytes ex_w (Some p).
Proof.
  apply (add_appends ex_w ex_l ["Z"%byte] 1 (Some ex_add.2) ex_add.1).
  - exact (reachable_Inv _ _ ex_reachable).
  - reflexivity.
Defined.

(** X5: A successful [insert] on a well-formed list raises the count by 1 and
    puts the new payload at index [k], the smaller of the index and the old
    count; the elements before [k] keep their index and those from [k] on
    move one index up, all with the same payload pointer and bytes. *)
Theorem ins_shifts w l bs n i l' w' :
  Inv w l → is_size_t i →
  llist_ins (Some l) (Some bs) n i w = Some ((LLIST_OK, l'), w') →
  let k := Z.min i (len l) in
  ∃ lv q, l' = Some lv ∧ len lv = len l + 1 ∧ Inv w' lv ∧
    llist_get l' k w' = Some (Some q, w') ∧
    read_bytes w' (Some q) = Some (take (Z.to_nat n) bs) ∧
    ∀ j, 0 ≤ j < len l →
      ∃ p, llist_get (Some l) j w = Some (Some p, w) ∧
           llist_get l' (if j <? k then j else j + 1) w' = Some (Some p, w') ∧
           read_bytes w' (Some p) = read_bytes w (Some p).
Proof.
  intros [cs Hrep] Hi Hins k. pose proof (rep_len _ _ _ Hrep) as Hlen.
  assert (Hir : 0 ≤ i < SIZE_MOD) by done.
  destruct (llist_ins_ok_rep _ _ _ _ _ _ _ _ Hrep Hi Hins) as (lv & c & -> & Hrep' & Hc & _).
  set (kn := Nat.min (Z.to_nat i) (length cs)) in *.
  assert (Hkn : k = Z.of_nat kn) by (unfold k, kn; lia).
  assert (Hle : (kn ≤ length cs)%nat) by (unfold kn; lia).
  pose proof (rep_len _ _ _ Hrep') as Hlen'. rewrite length_ins_at in Hlen'.
  exists lv, (c_buf c). split; [done|]. split; [lia|]. split; [by eexists|].
  destruct (get_at _ _ _ _ _ Hrep' (lookup_ins_at_eq kn c cs Hle)) as [Hg Hb].
  rewrite Hkn. split; [done|]. split; [by rewrite Hb, Hc|].
  intros j Hj.
  destruct (lookup_lt_is_Some_2 cs (Z.to_nat j)) as [cj Hcj]; [lia|].
  destruct (get_at _ _ _ _ _ Hrep Hcj) as [Hg1 Hb1].
  rewrite Z2Nat.id in Hg1 by lia.
  exists (c_buf cj). split; [done|]. rewrite Hb1.
  destruct (Z.ltb_spec j (Z.of_nat kn)) as [Hlt|Hge].
  - assert (Hl : ins_at kn c cs !! Z.to_nat j = Some cj)
      by (rewrite lookup_ins_at_lt by lia; done).
    destruct (get_at _ _ _ _ _ Hrep' Hl) as [Hg2 Hb2].
    rewrite Z2Nat.id in Hg2 by lia. done.
  - assert (Hl : ins_at kn c cs !! Z.to_nat (j + 1) = Some cj).
    { rewrite lookup_ins_at_gt by lia.
      by replace (Z.to_nat (j + 1) - 1)%nat with (Z.to_nat j) by lia. }
    destruct (get_at _ _ _ _ _ Hrep' Hl) as [Hg2 Hb2].
    rewrite Z2Nat.id in Hg2 by lia. done.
Qed.

Lemma ins_shifts_witness :
  let k := Z.min 1 (len ex_l) in
  ∃ lv q, Some ex_ins1.2 = Some lv ∧ len lv = len ex_l + 1 ∧ Inv ex_ins1.1 lv ∧
    llist_get (Some ex_ins1.2) k ex_ins1.1 = Some (Some q, ex_ins1.1) ∧
    read_bytes ex_ins1.1 (Some q) = Some (take (Z.to_nat 1) ["Y"%byte]) ∧
    ∀ j, 0 ≤ j < len ex_l →
      ∃ p, llist_get (Some ex_l) j ex_w = Some (Some p, ex_w) ∧
           llist_get (Some ex_ins1.2) (if j <? k then j else j + 1) ex_ins1.1 =
             Some (Some p, ex_ins1.1) ∧
           read_bytes ex_ins1.1 (Some p) = read_bytes ex_w (Some p).
Proof.
  apply (ins_shifts ex_w ex_l ["Y"%byte] 1 1 (Some ex_ins1.2) ex_ins1.1).
  - exact (reachable_Inv _ _ ex_reachable).
  - by apply size_t_small.
  - reflexivity.
Defined.

(** X6: [del] on a non-empty well-formed list removes the element at index [k],
    the smaller of the index and the last position: it returns that
    element's payload pointer, whose buffer stays allocated with its bytes
    while the node is released; the count drops by 1; the elements before
    [k] keep their index and those after it move one index down, all with
    the same payload pointer and bytes. *)
Theorem del_shifts w l i :
  Inv w l → len l ≠ 0 → is_size_t i →
  let k := Z.min i (len l - 1) in
  ∃ p l' w',
    llist_get (Some l) k w = Some (Some p, w) ∧
    llist_del (Some l) i w = Some ((Some p, Some l'), w') ∧
    Inv w' l' ∧ len l' = len l - 1 ∧
    read_bytes w' (Some p) = read_bytes w (Some p) ∧
    is_Some (read_bytes w' (Some p)) ∧
    ∀ j, 0 ≤ j < len l - 1 →
      ∃ pj, llist_get (Some l) (if j <? k then j else j + 1) w = Some (Some pj, w) ∧
            llist_get (Some l') j w' = Some (Some pj, w') ∧
            read_bytes w' (Some pj) = read_bytes w (Some pj).
Proof.
  intros [cs Hrep] Hne Hi k. pose proof (rep_len _ _ _ Hrep) as Hlen.
  assert (Hir : 0 ≤ i < SIZE_MOD) by done.
  assert (Hnil : cs ≠ []) by (intros ->; simpl in Hlen; lia).
  destruct (llist_del_rep _ _ _ i Hrep Hnil Hi)
    as (c0 & l' & w' & Hc0 & Hdel & Hrep' & Hbuf & Hnode & _).
  rewrite (clamp_index _ _ _ _ Hrep Hnil Hi) in *.
  set (kn := Nat.min (Z.to_nat i) (length cs - 1)) in *.
  assert (Hkn : k = Z.of_nat kn) by (unfold k, kn; lia).
  pose proof (lookup_lt_Some _ _ _ Hc0) as Hlt.
  pose proof (rep_len _ _ _ Hrep') as Hlen'.
  rewrite length_delete in Hlen' by (by eexists).
  destruct (get_at _ _ _ _ _ Hrep Hc0) as [Hg Hb].
  exists (c_buf c0), l', w'. rewrite Hkn. split; [done|]. split; [done|].
  split; [by eexists|]. split; [lia|].
  assert (Hb' : read_bytes w' (Some (c_buf c0)) = Some (c_bytes c0))
    by (unfold read_bytes; by rewrite Hbuf).
  split; [by rewrite Hb, Hb'|]. split; [by rewrite Hb'|].
  intros j Hj.
  destruct (lookup_lt_is_Some_2 (delete kn cs) (Z.to_nat j)) as [cj Hcj].
  { rewrite length_delete by (by eexists). lia. }
  destruct (get_at _ _ _ _ _ Hrep' Hcj) as [Hg2 Hb2].
  rewrite Z2Nat.id in Hg2 by lia.
  exists (c_buf cj). rewrite Hb2.
  destruct (Z.ltb_spec j (Z.of_nat kn)) as [Hl|Hge].
  - rewrite list_lookup_delete_lt in Hcj by lia.
    destruct (get_at _ _ _ _ _ Hrep Hcj) as [Hg1 Hb1].
    rewrite Z2Nat.id in Hg1 by lia. by rewrite Hb1.
  - rewrite list_lookup_delete_ge in Hcj by lia.
    destruct (get_at _ _ _ _ _ Hrep Hcj) as [Hg1 Hb1].
    replace (Z.of_nat (S (Z.to_nat j))) with (j + 1) in Hg1 by lia. by rewrite Hb1.
Qed.

Lemma del_shifts_witness :
  let k := Z.min 1 (len ex_l - 1) in
  ∃ p l' w',
    llist_get (Some ex_l) k ex_w = Some (Some p, ex_w) ∧
    llist_del (Some ex_l) 1 ex_w = Some ((Some p, Some l'), w') ∧
    Inv w' l' ∧ len l' = len ex_l - 1 ∧
    read_bytes w' (Some p) = read_bytes ex_w (Some p) ∧
    is_Some (read_bytes w' (Some p)) ∧
    ∀ j, 0 ≤ j < len ex_l - 1 →
      ∃ pj, llist_get (Some ex_l) (if j <? k then j else j + 1) ex_w = Some (Some pj, ex_w) ∧
            llist_get (Some l') j w' = Some (Some pj, w') ∧
            read_bytes w' (Some pj) = read_bytes ex_w (Some pj).
Proof.
  apply (del_shifts ex_w ex_l 1).
  - exact (reachable_Inv _ _ ex_reachable).
  - discriminate.
  - by apply size_t_small.
Defined.

Lemma delete_ins_at {A} i (x : A) l :
  (i ≤ length l)%nat → delete i (ins_at i x l) = l.
Proof.
  intros Hi. unfold ins_at. rewrite delete_take_drop.
  rewrite take_app_le by (rewrite length_take; lia).
  rewrite take_take, Nat.min_id.
  rewrite drop_app_ge by (rewrite length_take; lia).
  rewrite length_take_le by done.
  replace (S i - i)%nat with 1%nat by lia. simpl. rewrite drop_0.
  apply take_drop.
Qed.

(** X7: [del] undoes [insert]: after a successful [insert] at any index on a
    well-formed list, [del] at the same index returns the payload just
    inserted, and the list structure and the sequence of nodes and buffers
    it stands for are exactly what they were before the [insert]. *)
Theorem ins_del_roundtrip w l bs n i l1 w1 :
  Inv w l → is_size_t i →
  llist_ins (Some l) (Some bs) n i w = Some ((LLIST_OK, l1), w1) →
  ∃ q w2 cs,
    llist_del l1 i w1 = Some ((Some q, Some l), w2) ∧
    read_bytes w2 (Some q) = Some (take (Z.to_nat n) bs) ∧
    rep w l cs ∧ rep w2 l cs.
Proof.
  intros [cs Hrep] Hi Hins. pose proof (rep_len _ _ _ Hrep) as Hlen.
  assert (Hir : 0 ≤ i < SIZE_MOD) by done.
  destruct (llist_ins_ok_rep _ _ _ _ _ _ _ _ Hrep Hi Hins) as (lv & c & -> & Hrep1 & Hc & _).
  set (kn := Nat.min (Z.to_nat i) (length cs)) in *.
  assert (Hle : (kn ≤ length cs)%nat) by (unfold kn; lia).
  assert (Hnil : ins_at kn c cs ≠ []).
  { intros H. apply (f_equal length) in H. rewrite length_ins_at in H. done. }
  destruct (llist_del_rep _ _ _ i Hrep1 Hnil Hi)
    as (c0 & l2 & w2 & Hc0 & Hdel & Hrep2 & Hbuf & _).
  rewrite (clamp_index _ _ _ _ Hrep1 Hnil Hi), length_ins_at in *.
  replace (Nat.min (Z.to_nat i) (S (length cs) - 1)) with kn in * by (unfold kn; lia).
  rewrite lookup_ins_at_eq in Hc0 by done. simplify_eq.
  rewrite delete_ins_at in Hrep2 by done.
  pose proof (rep_list_unique _ _ _ _ _ Hrep Hrep2) as ->.
  exists (c_buf c0), w2, cs. split; [done|]. split; [|done].
  unfold read_bytes. by rewrite Hbuf, Hc.
Qed.

Lemma ins_del_roundtrip_witness :
  ∃ q w2 cs,
    llist_del (Some ex_ins1.2) 1 ex_ins1.1 = Some ((Some q, Some ex_l), w2) ∧
    read_bytes w2 (Some q) = Some (take (Z.to_nat 1) ["Y"%byte]) ∧
    rep ex_w ex_l cs ∧ rep w2 ex_l cs.
Proof.
  apply (ins_del_roundtrip ex_w ex_l ["Y"%byte] 1 1 (Some ex_ins1.2) ex_ins1.1).
  - exact (reachable_Inv _ _ ex_reachable).
  - by apply size_t_small.
  - reflexivity.
Defined.

(** *** What [clear] releases *)

Lemma elem_of_footprint a cs :
  a ∈ footprint cs ↔ ∃ c, c ∈ cs ∧ (a = c_node c ∨ a = c_buf c).
Proof.
  unfold footprint. rewrite elem_of_app, !list_elem_of_fmap. split.
  - intros [(c & -> & Hc)|(c & -> & Hc)]; exists c; auto.
  - intros (c & Hc & [Ha|Ha]); subst a; [left|right]; by exists c.
Qed.

Lemma lookup_release cs : ∀ h a,
  foldl release h cs !! a =
    if decide (a ∈ footprint cs) then None else h !! a.
Proof.
  induction cs as [|c cs IH]; intros h a.
  - case_decide as Hin; [|done].
    apply elem_of_footprint in Hin as (c & Hc & _). by apply elem_of_nil in Hc.
  - cbn [foldl]. rewrite IH. unfold release.
    destruct (decide (a ∈ footprint cs)) as [Hin|Hnin].
    + rewrite decide_True; [done|].
      apply elem_of_footprint in Hin as (c' & Hc' & Ha).
      apply elem_of_footprint. exists c'. split; [by apply elem_of_cons; right|done].
    + rewrite !lookup_delete.
      destruct (decide (c_node c = a)) as [<-|Hn].
      { rewrite decide_True; [done|]. apply elem_of_footprint.
        exists c. split; [apply elem_of_cons; by left|by left]. }
      destruct (decide (c_buf c = a)) as [<-|Hb].
      { rewrite decide_True; [done|]. apply elem_of_footprint.
        exists c. split; [apply elem_of_cons; by left|by right]. }
      rewrite decide_False; [done|].
      intros (c' & [->|Hc']%elem_of_cons & Ha)%elem_of_footprint.
      * by destruct Ha.
      * apply Hnin, elem_of_footprint. by exists c'.
Qed.

(** X8: [clear] on a list holding the elements [cs] releases exactly the nodes
    and payload buffers of [cs]: afterwards none of these addresses is
    allocated, every other object of the heap is as before, and the
    allocator's future behaviour is untouched. *)
Theorem clear_frees_exactly w l cs :
  rep w l cs →
  ∃ l' w', llist_clear (Some l) w = Some (Some l', w') ∧
    oracle w' = oracle w ∧
    ∀ a, heap w' !! a = if decide (a ∈ footprint cs) then None else heap w !! a.
Proof.
  intros Hrep. pose proof (rep_len _ _ _ Hrep) as Hlen.
  destruct (decide (cs = [])) as [->|Hne].
  - exists l, w. split; [|split; [done|]].
    + apply llist_clear_empty. simpl. by rewrite Hlen.
    + intros a. case_decide as Hin; [|done].
      apply elem_of_footprint in Hin as (c & Hc & _). by apply elem_of_nil in Hc.
  - unfold llist_clear, llist_empty.
    destruct (Z.eqb_spec (len l) 0) as [Hz|_].
    { destruct cs; [done|simpl in Hlen; lia]. }
    assert (Hlk : (λ w0, clear_loop (S (size (heap w0))) (head l) w0) w =
                  Some (tt, set_heap (foldl release (heap w) cs) w)).
    { cbv beta. rewrite (rep_head _ _ _ Hrep). apply clear_loop_fwd.
      - by eapply rep_fwd.
      - rewrite <- (length_fmap c_node). apply Nat.le_le_succ_r.
        apply NoDup_alloc_length; [apply (rep_nodup _ _ _ Hrep)|].
        intros a (c & -> & Hc)%list_elem_of_fmap.
        apply list_elem_of_lookup in Hc as [k Hk].
        rewrite (rep_nodes _ _ _ Hrep _ _ Hk). by eexists. }
    rewrite (bind_run _ _ _ _ _ Hlk). eexists _, _. split; [reflexivity|].
    split; [done|]. intros a. simpl. apply lookup_release.
Qed.

Lemma ex_rep : rep ex_w ex_l ex_cs.
Proof.
  split.
  - destruct (reachable_Inv _ _ ex_reachable) as [cs Hrep]. apply Hrep.
  - apply (bool_decide_unpack _). vm_compute. exact I.
  - apply (bool_decide_unpack _). vm_compute. exact I.
  - intros [|[|[|k]]] c Hk; unfold ex_cs in Hk; simpl in Hk; simplify_eq; reflexivity.
  - intros [|[|[|k]]] c Hk; unfold ex_cs in Hk; simpl in Hk; simplify_eq; reflexivity.
  - reflexivity.
  - reflexivity.
  - reflexivity.
Qed.

Lemma clear_frees_exactly_witness :
  ∃ l' w', llist_clear (Some ex_l) ex_w = Some (Some l', w') ∧
    oracle w' = oracle ex_w ∧
    ∀ a, heap w' !! a = if decide (a ∈ footprint ex_cs) then None else heap ex_w !! a.
Proof. apply (clear_frees_exactly ex_w ex_l ex_cs). exact ex_rep. Defined.

(** *** The list as a sequence of byte strings *)

Lemma fmap_ins_at {A B} (f : A → B) i x l :
  f <$> ins_at i x l = ins_at i (f x) (f <$> l).
Proof. unfold ins_at. by rewrite fmap_app, fmap_cons, fmap_take, fmap_drop. Qed.

Lemma contents_lookup cs k : contents cs !! k = c_bytes <$> cs !! k.
Proof. apply list_lookup_fmap. Qed.

Lemma abs_index_contents w l cs i :
  rep w l cs → cs ≠ [] → is_size_t i →
  Z.to_nat (clamp (len l) i) = abs_index (contents cs) i.
Proof.
  intros Hrep Hne Hi. unfold abs_index, contents. rewrite length_fmap.
  by eapply clamp_index.
Qed.

Lemma run_op_abs o w l cs :
  rep w l cs → args_ok o →
  ∃ r l' w' cs',
    run_op o (Some l) w = Some ((r, Some l'), w') ∧
    rep w' l' cs' ∧
    contents cs' = abs_step o (is_ok r) (contents cs) ∧
    result_bytes w' r = abs_result o (contents cs).
Proof.
  intros Hrep [Hop Hargs].
  destruct o as [|i|d n|d n i|i|]; cbn [run_op op_ok] in *.
  - destruct (llist_init_rep w l (rep_heap _ _ _ Hrep)) as [Hi Hr].
    rewrite (bind_run _ _ _ _ _ Hi). by eexists _, _, _, [].
  - destruct (decide (cs = [])) as [->|Hne].
    + assert (Hg : llist_get (Some l) i w = Some (None, w)).
      { apply llist_get_empty. simpl. by rewrite (rep_len _ _ _ Hrep). }
      rewrite (bind_run _ _ _ _ _ Hg). by eexists _, _, _, [].
    + rewrite (bind_run _ _ _ _ _ (llist_get_rep Hrep i Hne Hop)).
      eexists _, _, _, cs. split; [reflexivity|]. split; [done|]. split; [done|].
      cbn [result_bytes abs_result].
      rewrite (abs_index_contents _ _ _ _ Hrep Hne Hop).
      rewrite contents_lookup.
      destruct (cs !! abs_index (contents cs) i) as [c|] eqn:Hc; [|done].
      simpl. by rewrite (rep_bufs _ _ _ Hrep _ _ Hc).
  - destruct (llist_add_Inv w l d n (ex_intro _ cs Hrep) Hargs)
      as (st & l' & w' & Hadd & _).
    rewrite (bind_run _ _ _ _ _ Hadd).
    destruct (llist_add_result _ _ _ _ _ _ _ Hadd)
      as [(-> & _ & ? & ?)|[(-> & _ & [bs ->] & _ & Hnew & ?)|(-> & _ & [bs ->] & _)]];
      simplify_eq.
    + exists (RStatus LLIST_NULL_ERR), l, w, cs. split; [done|]. split; [done|].
      split; [|done]. simpl. by destruct d.
    + apply lnode_new_result in Hnew.
      exists (RStatus LLIST_ALLOC_ERR), l, w', cs. split; [done|].
      split; [by eapply rep_heap_eq|done].
    + destruct (llist_add_ok_rep _ _ _ _ _ _ _ Hrep Hadd) as (lv & c & ? & Hrep' & Hc & _).
      simplify_eq. exists (RStatus LLIST_OK), lv, w', (cs ++ [c]).
      split; [done|]. split; [done|]. split; [|done].
      simpl. unfold contents. by rewrite fmap_app, <- Hc.
  - destruct Hop as [_ Hi].
    destruct (llist_ins_Inv w l d n i (ex_intro _ cs Hrep) Hargs Hi)
      as (st & l' & w' & Hins & _).
    rewrite (bind_run _ _ _ _ _ Hins).
    destruct (llist_ins_result _ _ _ _ _ _ _ _ Hins)
      as [(-> & _ & ? & ?)|[(-> & _ & [bs ->] & _ & Hnew & ?)|(-> & _ & [bs ->] & _)]];
      simplify_eq.
    + exists (RStatus LLIST_NULL_ERR), l, w, cs. split; [done|]. split; [done|].
      split; [|done]. simpl. by destruct d.
    + apply lnode_new_result in Hnew.
      exists (RStatus LLIST_ALLOC_ERR), l, w', cs. split; [done|].
      split; [by eapply rep_heap_eq|done].
    + destruct (llist_ins_ok_rep _ _ _ _ _ _ _ _ Hrep Hi Hins)
        as (lv & c & ? & Hrep' & Hc & _).
      simplify_eq. eexists (RStatus LLIST_OK), lv, w', _.
      split; [done|]. split; [done|]. split; [|done].
      simpl. unfold contents. by rewrite fmap_ins_at, length_fmap, <- Hc.
  - destruct (decide (cs = [])) as [->|Hne].
    + rewrite (bind_run _ _ _ _ _ (llist_del_rep_empty _ _ i Hrep)).
      by eexists _, _, _, [].
    + destruct (llist_del_rep _ _ _ i Hrep Hne Hop)
        as (c0 & l' & w' & Hc0 & Hdel & Hrep' & Hbuf & _).
      rewrite (bind_run _ _ _ _ _ Hdel).
      rewrite (abs_index_contents _ _ _ _ Hrep Hne Hop) in *.
      eexists _, _, _, _. split; [reflexivity|]. split; [done|].
      cbn [abs_step abs_result result_bytes]. split.
      * unfold contents. by rewrite list_fmap_delete.
      * rewrite contents_lookup, Hc0. simpl. by rewrite Hbuf.
  - destruct (llist_clear_rep _ _ _ Hrep) as (w' & Hc & Hrep' & _).
    rewrite (bind_run _ _ _ _ _ Hc). by eexists _, _, _, [].
Qed.

(** X9: Every public operation, on a list holding the elements [cs] and with
    arguments of its types and a buffer of at least [n] bytes, returns and
    acts on the sequence of payloads as [abs_step] says: [add] appends,
    [insert] inserts at the index or at the end, [del] removes the element
    at the clamped index, [init] and [clear] give the empty sequence, [get]
    and failed calls change nothing; and the pointer [get] or [del] returns
    refers to the bytes of the element at the clamped index. *)
Theorem run_op_refines o w l :
  Inv w l → args_ok o →
  ∃ cs r l' w' cs',
    rep w l cs ∧
    run_op o (Some l) w = Some ((r, Some l'), w') ∧
    rep w' l' cs' ∧
    contents cs' = abs_step o (is_ok r) (contents cs) ∧
    result_bytes w' r = abs_result o (contents cs).
Proof.
  intros [cs Hrep] Hargs.
  destruct (run_op_abs o w l cs Hrep Hargs) as (r & l' & w' & cs' & Hrun & Hrep' & Hc & Hr).
  exists cs, r, l', w', cs'. by split.
Qed.

Lemma run_op_refines_witness :
  ∃ cs r l' w' cs',
    rep ex_w ex_l cs ∧
    run_op (OpDel 1) (Some ex_l) ex_w = Some ((r, Some l'), w') ∧
    rep w' l' cs' ∧
    contents cs' = abs_step (OpDel 1) (is_ok r) (contents cs) ∧
    result_bytes w' r = abs_result (OpDel 1) (contents cs).
Proof.
  apply (run_op_refines (OpDel 1) ex_w ex_l).
  - exact (reachable_Inv _ _ ex_reachable).
  - split; [by apply size_t_small|exact I].
Defined.

Lemma run_ops_rep os : ∀ w l cs,
  rep w l cs → Forall args_ok os →
  ∃ rs l' w' cs',
    run_ops os (Some l) w = Some ((rs, Some l'), w') ∧
    rep w' l' cs' ∧ length rs = length os ∧
    contents cs' = abs_run os rs (contents cs).
Proof.
  induction os as [|o os IH]; intros w l cs Hrep Hok.
  - by exists [], l, w, cs.
  - apply Forall_cons in Hok as [Ho Hok].
    destruct (run_op_abs o w l cs Hrep Ho) as (r & l1 & w1 & cs1 & Hrun & Hrep1 & Hc1 & _).
    destruct (IH w1 l1 cs1 Hrep1 Hok) as (rs & l' & w' & cs' & Hruns & Hrep' & Hlen & Hc').
    exists (r :: rs), l', w', cs'. cbn [run_ops].
    rewrite (bind_run _ _ _ _ _ Hrun). cbv beta iota.
    rewrite (bind_run _ _ _ _ _ Hruns).
    split; [done|]. split; [done|]. split; [simpl; by rewrite Hlen|].
    cbn [abs_run]. by rewrite <- Hc1.
Qed.

(** X10: After [init] and any run of public operations with valid arguments, the
    count is the number of live elements: the length of the sequence that
    the reference model reaches with the same operations and the same
    outcomes of [add] and [insert]; and [get] at every index below the count
    yields the bytes of that sequence. *)
Theorem count_is_live_elements w l0 os :
  heap_ok (heap w) → Forall args_ok os →
  ∃ rs l' w',
    run_ops (OpInit :: os) (Some l0) w = Some ((rs, Some l'), w') ∧
    let xs := abs_run (OpInit :: os) rs [] in
    len l' = Z.of_nat (length xs) ∧
    ∀ (j : nat) bs, xs !! j = Some bs →
      ∃ p, llist_get (Some l') (Z.of_nat j) w' = Some (Some p, w') ∧
           read_bytes w' (Some p) = Some bs.
Proof.
  intros Hheap Hok.
  destruct (llist_init_rep w l0 Hheap) as [Hinit Hrep0].
  destruct (run_ops_rep os w _ [] Hrep0 Hok) as (rs & l' & w' & cs' & Hruns & Hrep' & _ & Hc').
  exists (RStatus LLIST_OK :: rs), l', w'. split.
  - cbn [run_ops run_op]. rewrite ?bind_assoc.
    rewrite (bind_run _ _ _ _ _ Hinit). cbv beta iota. rewrite ret_bind.
    by rewrite (bind_run _ _ _ _ _ Hruns).
  - cbn [abs_run abs_step]. change (contents []) with (@nil (list byte)) in Hc'.
    rewrite <- Hc'. split.
    + rewrite (rep_len _ _ _ Hrep'). unfold contents. by rewrite length_fmap.
    + intros j bs Hj. rewrite contents_lookup in Hj.
      destruct (cs' !! j) as [c|] eqn:Hc; simplify_eq/=.
      destruct (get_at _ _ _ _ _ Hrep' Hc) as [Hg Hb]. by exists (c_buf c).
Qed.

Lemma count_is_live_elements_witness :
  ∃ rs l' w',
    run_ops (OpInit :: ex_ops) (Some ex_garbage) ex_start = Some ((rs, Some l'), w') ∧
    let xs := abs_run (OpInit :: ex_ops) rs [] in
    len l' = Z.of_nat (length xs) ∧
    ∀ (j : nat) bs, xs !! j = Some bs →
      ∃ p, llist_get (Some l') (Z.of_nat j) w' = Some (Some p, w') ∧
           read_bytes w' (Some p) = Some bs.
Proof.
  apply (count_is_live_elements ex_start ex_garbage ex_ops).
  - exact heap_ok_empty.
  - repeat constructor; try (by apply size_t_small); simpl; lia.
Defined.

(** *** Node allocation *)

(** X11: [lnode_new], given an object of at least [n] bytes, either fails and
    leaves the heap as it was, or returns a node at an address that was not
    allocated, with both links null and [data] pointing to a buffer at
    another address that was not allocated, holding exactly the first [n]
    bytes; every object that existed before is unchanged. *)
Theorem lnode_new_outcomes bs n w :
  n ≤ Z.of_nat (length bs) →
  ∃ r w1, lnode_new (Some bs) n w = Some (r, w1) ∧
    match r with
    | None => heap w1 = heap w
    | Some a => ∃ q,
        a ≠ q ∧ heap w !! a = None ∧ heap w !! q = None ∧
        heap w1 !! a = Some (BNode {| data := Some q; prev := None; next := None |}) ∧
        heap w1 !! q = Some (BData (take (Z.to_nat n) bs)) ∧
        ∀ b, b ≠ a → b ≠ q → heap w1 !! b = heap w !! b
    end.
Proof.
  intros Hn. destruct (lnode_new_spec bs n w Hn) as (r & w1 & Hnew & Hr).
  exists r, w1. split; [done|]. destruct r as [a|]; [|done].
  destruct Hr as (q & _ & _ & Haq & Hfa & Hfq & ->). exists q.
  do 3 (split; [done|]). split; [by rewrite lookup_insert_ne, lookup_insert_eq|].
  split; [by rewrite lookup_insert_eq|].
  intros b Hba Hbq. by rewrite !lookup_insert_ne.
Qed.

Lemma lnode_new_outcomes_witness :
  ∃ r w1, lnode_new (Some ["Y"%byte]) 1 ex_w = Some (r, w1) ∧
    match r with
    | None => heap w1 = heap ex_w
    | Some a => ∃ q,
        a ≠ q ∧ heap ex_w !! a = None ∧ heap ex_w !! q = None ∧
        heap w1 !! a = Some (BNode {| data := Some q; prev := None; next := None |}) ∧
        heap w1 !! q = Some (BData (take (Z.to_nat 1) ["Y"%byte])) ∧
        ∀ b, b ≠ a → b ≠ q → heap w1 !! b = heap ex_w !! b
    end.
Proof. apply (lnode_new_outcomes ["Y"%byte] 1 ex_w). simpl. lia. Defined.

(** *** The cost of index resolution *)

Lemma walk_reads field k : ∀ p w r w',
  walk field k p w = Some (r, w') →
  ∃ ns, length ns = k ∧
    ∀ w2, (∀ a, a ∈ ns → heap w2 !! a = heap w !! a) →
          walk field k p w2 = Some (r, w2).
Proof.
  induction k as [|k IH]; intros p w r w' H; simpl in H.
  - ret_inv H. exists []. split; [done|]. by intros w2 _.
  - apply bind_inv in H as (nd & w1 & Hl & H).
    unfold load_node in Hl. destruct p as [a|]; [|done].
    destruct (heap w !! a) as [[nd'|?]|] eqn:E; simplify_eq.
    destruct (IH _ _ _ _ H) as (ns & Hlen & Hns).
    exists (a :: ns). split; [simpl; by rewrite Hlen|].
    intros w2 Hagree. cbn [walk].
    erewrite bind_run.
    2:{ apply load_node_run. rewrite (Hagree a) by (apply elem_of_cons; by left). exact E. }
    apply Hns. intros b Hb. apply Hagree, elem_of_cons. by right.
Qed.

(** X12: on a non-empty well-formed list [lnode_get] reads at most half the
    count of nodes: there is a set of [lnode_get_steps] addresses, no more
    than [len / 2], such that [lnode_get] returns the same node on every
    heap that agrees with the present one at these addresses, whatever the
    rest of that heap holds. *)
Theorem lnode_get_half w l i :
  Inv w l → len l ≠ 0 → is_size_t i →
  ∃ ns r,
    length ns = lnode_get_steps l i ∧
    Z.of_nat (length ns) ≤ len l / 2 ∧
    lnode_get (Some l) i w = Some (r, w) ∧
    ∀ w2, (∀ a, a ∈ ns → heap w2 !! a = heap w !! a) →
          lnode_get (Some l) i w2 = Some (r, w2).
Proof.
  intros [cs Hrep] Hne Hi.
  pose proof (rep_len _ _ _ Hrep) as Hlen.
  pose proof (rep_length_bound Hrep) as Hbound.
  assert (Hnil : cs ≠ []) by (intros ->; simpl in Hlen; lia).
  pose proof (clamp_range Hrep i Hnil Hi) as Hk.
  pose proof (lnode_get_rep Hrep i Hnil Hi) as Hget.
  assert (Hsteps : Z.of_nat (lnode_get_steps l i) ≤ len l / 2).
  { unfold lnode_get_steps. cbv zeta.
    destruct (Z.leb_spec (len l / 2) (clamp (len l) i)) as [Hhi|Hlo]; [|lia].
    rewrite (wrap_small (len l - clamp (len l) i)) by lia.
    rewrite wrap_small by lia.
    pose proof (Z.div_mod (len l) 2 ltac:(lia)).
    pose proof (Z.mod_pos_bound (len l) 2 ltac:(lia)). lia. }
  assert (Hun : ∀ w0, lnode_get (Some l) i w0 =
            (if len l / 2 <=? clamp (len l) i
             then walk prev (lnode_get_steps l i) (tail l) w0
             else walk next (lnode_get_steps l i) (head l) w0)).
  { intros w0. unfold lnode_get_steps, lnode_get, llist_empty.
    destruct (Z.eqb_spec (len l) 0) as [|_]; [done|]. cbv zeta.
    by destruct (len l / 2 <=? clamp (len l) i). }
  rewrite Hun in Hget.
  destruct (len l / 2 <=? clamp (len l) i) eqn:E.
  - destruct (walk_reads _ _ _ _ _ _ Hget) as (ns & Hns & Hagree).
    exists ns; eexists. split; [done|]. split; [by rewrite Hns|].
    split; [by rewrite Hun|]. intros w2 Hw2. rewrite Hun. by apply Hagree.
  - destruct (walk_reads _ _ _ _ _ _ Hget) as (ns & Hns & Hagree).
    exists ns; eexists. split; [done|]. split; [by rewrite Hns|].
    split; [by rewrite Hun|]. intros w2 Hw2. rewrite Hun. by apply Hagree.
Qed.

Lemma lnode_get_half_witness :
  ∃ ns r,
    length ns = lnode_get_steps ex_l 1 ∧
    Z.of_nat (length ns) ≤ len ex_l / 2 ∧
    lnode_get (Some ex_l) 1 ex_w = Some (r, ex_w) ∧
    ∀ w2, (∀ a, a ∈ ns → heap w2 !! a = heap ex_w !! a) →
          lnode_get (Some ex_l) 1 w2 = Some (r, w2).
Proof.
  apply (lnode_get_half ex_w ex_l 1).
  - exact (reachable_Inv _ _ ex_reachable).
  - discriminate.
  - by apply size_t_small.
Defined.

(** Index 1 of the three elements is resolved by one step back from the
    tail. *)
Example lnode_get_steps_mid : lnode_get_steps ex_l 1 = 1%nat.
Proof. reflexivity. Qed.
